(** * Hikma Health admin: list and option utilities

    A shallow embedding of the data-transformation helpers of the admin
    front-end: [orderedList], [deduplicateOptions] and [safeJSONParse] from
    the utility module, and [fieldOptionsUnion] from the form builder's
    [InputSettingsList] component; with them [mapObjectValues],
    [camelCaseKeys] and [getTopNWithOther] of the utility module, the data
    the component passes to its option select, and [getClinicName] of the
    users page.

    The file has two layers.  The functional layer follows the TypeScript
    signatures: an argument declared as an array is either an array of the
    declared element type or some other JavaScript value, and a call either
    completes normally or throws.  The store layer ([Module Store]) places
    arrays, [Map]s, [Set]s and objects in a heap of mutable cells and
    follows the code on every value, of the declared type or not, so that
    what the functions write to can be stated; [Module Refinement] shows
    that on well-typed arguments it computes what the functional layer
    computes.

    The definitions of both layers come first, the proofs after them. *)

From Stdlib Require Import PrimFloat SpecFloat FloatOps Ascii.
From stdpp Require Import gmap gmultiset strings list fin_maps sorting pretty.

Local Open Scope string_scope.
Local Open Scope list_scope.
Set Warnings "-register-all,-clear-no-such-hyp".

(** ** JavaScript values and completions *)

(** The primitive values.  Numbers are IEEE 754 doubles; a symbol is
    known by its identity. *)
Inductive primitive : Type :=
  | PUndefined
  | PNull
  | PBoolean (b : bool)
  | PNumber (n : float)
  | PBigInt (z : Z)
  | PString (s : string)
  | PSymbol (id : positive).

(** A JavaScript value as [typeof], [Array.isArray] and [JSON.parse] see
    it. *)
Inductive js_value : Type :=
  | JPrimitive (p : primitive)
  | JArray (items : list js_value)
  | JObject (props : list (string * js_value))
  | JFunction.

(** A value that is not an array, given where the signature asks for one. *)
Inductive non_array : Type :=
  | NPrimitive (p : primitive)
  | NObject (props : list (string * js_value))
  | NFunction.

(** An argument declared [A[]]: an array of [A], or any other value. *)
Inductive dyn (A : Type) : Type :=
  | Arr (items : list A)
  | NotArr (v : non_array).
Arguments Arr {A} items.
Arguments NotArr {A} v.

Inductive js_error : Type := TypeError | SyntaxError.

(** How a call ends: with a value, or with a thrown error. *)
Inductive completion (A : Type) : Type :=
  | Normal (a : A)
  | Throw (e : js_error).
Arguments Normal {A} a.
Arguments Throw {A} e.

#[global] Instance completion_ret : MRet completion := λ A a, Normal a.
#[global] Instance completion_bind : MBind completion := λ A B k c,
  match c with
  | Normal a => k a
  | Throw e => Throw e
  end.

(** A loop whose body may throw; the first throw leaves the loop. *)
Fixpoint for_each {A S} (body : S → A → completion S) (items : list A) (s : S)
    : completion S :=
  match items with
  | [] => Normal s
  | item :: rest => s' ← body s item ; for_each body rest s'
  end.

(** [Array.isArray(v)]. *)
Definition isArray {A} (v : dyn A) : bool :=
  match v with
  | Arr _ => true
  | NotArr _ => false
  end.

(** [recv.filter(pred)]: only an array has a [filter] method here; calling
    it on [undefined], [null], a string, a number, a boolean or a plain
    object is a [TypeError]. *)
Definition array_filter {A} (recv : dyn A) (pred : A → bool) : completion (list A) :=
  match recv with
  | Arr items => Normal (List.filter pred items)
  | NotArr _ => Throw TypeError
  end.

(** The items of [for (const item of v)].  A string iterates over its
    characters; the other non-arrays are not iterable.  In [orderedList]
    the loop is behind the [Array.isArray] guards. *)
Definition for_of_items (v : dyn string) : completion (list string) :=
  match v with
  | Arr items => Normal items
  | NotArr (NPrimitive (PString s)) =>
      Normal ((λ c, String c EmptyString) <$> String.list_ascii_of_string s)
  | NotArr _ => Throw TypeError
  end.

(** ** [orderedList] *)

(** Truthiness of a string: only the empty string is falsy. *)
Definition truthy (item : string) : bool := negb (String.eqb item "").

(** [countMap.set(item, (countMap.get(item) || 0) + 1)]. *)
Definition count_item (countMap : gmap string nat) (item : string) : gmap string nat :=
  <[item := default 0 (countMap !! item) + 1]> countMap.

(** The body shared by both loops: if the map has [item], push it and
    take one off its count, deleting the key when the count was 1. *)
Definition take_one (st : list string * gmap string nat) (item : string)
    : list string * gmap string nat :=
  let '(result, countMap) := st in
  match countMap !! item with
  | Some count =>
      (result ++ [item],
       if decide (1 < count) then <[item := count - 1]> countMap
       else delete item countMap)
  | None => st
  end.

(** The body of the loop over [list2], which skips the placeholder. *)
Definition place_listed (st : list string * gmap string nat) (item : string)
    : list string * gmap string nat :=
  if String.eqb item "_" then st else take_one st item.

Definition orderedList (list1 list2 : dyn string) : completion (dyn string) :=
  if negb (isArray list1) then Normal (Arr [])
  else if negb (isArray list2) && isArray list1 then Normal list1
  else
    remaining ← array_filter list1 truthy ;
    let countMap := foldl count_item ∅ remaining in
    items ← for_of_items list2 ;
    let st := foldl place_listed ([], countMap) items in
    let st := foldl take_one st remaining in
    Normal (Arr st.1).

(** The algorithm as the specification words it: count every token of
    [list1]; walk [list2], skipping ["_"], and emit each token whose
    remaining count is positive, decrementing it; then walk [list1] the
    same way. *)
Definition reference_take (st : list string * gmultiset string) (token : string)
    : list string * gmultiset string :=
  if decide (0 < multiplicity token st.2)
  then (st.1 ++ [token], st.2 ∖ {[+ token +]})
  else st.

Definition reference_listed (st : list string * gmultiset string) (token : string)
    : list string * gmultiset string :=
  if decide (token = "_") then st else reference_take st token.

Definition reference_reorder (list1 list2 : list string) : list string :=
  let counts : gmultiset string := list_to_set_disj list1 in
  let st := foldl reference_listed ([], counts) list2 in
  (foldl reference_take st list1).1.

(** ** Options *)

(** [FieldOption]: [{ value: string, label: string }]. *)
Record FieldOption : Type := { value : string; label : string }.

#[global] Instance FieldOption_eq_dec : EqDecision FieldOption.
Proof. solve_decision. Defined.

(** An element of an options array as it arrives at run time. *)
Inductive entry : Type :=
  | ENull
  | EUndefined
  | EOption (o : FieldOption).

#[global] Instance entry_eq_dec : EqDecision entry.
Proof. solve_decision. Defined.

(** Truthiness of an entry: an object is truthy, [null] and [undefined]
    are not. *)
Definition truthy_entry (e : entry) : bool :=
  match e with
  | EOption _ => true
  | ENull | EUndefined => false
  end.

(** [option.value]: reading a property of [null] or [undefined] throws. *)
Definition get_value (option : entry) : completion string :=
  match option with
  | EOption o => Normal (value o)
  | ENull | EUndefined => Throw TypeError
  end.

(** ** [deduplicateOptions] *)

(** The loop body: an option whose value is new is recorded and pushed. *)
Definition dedup_step (st : gset string * list entry) (option : entry)
    : completion (gset string * list entry) :=
  let '(seenValues, deduplicatedOptions) := st in
  v ← get_value option;
  if decide (v ∈ seenValues) then Normal st
  else Normal ({[v]} ∪ seenValues, deduplicatedOptions ++ [option]).

Definition deduplicateOptions (options : dyn entry) : completion (dyn entry) :=
  filtered ← array_filter options truthy_entry;
  st ← for_each dedup_step filtered (∅, []);
  Normal (Arr st.2).

(** The contract as the specification words it: an entry is kept when it
    is an option whose value occurs in no option before it. *)
Definition values_of (options : list entry) : list string :=
  omap (λ e, match e with EOption o => Some (value o) | _ => None end) options.

Definition kept (options : list entry) (i : nat) : option entry :=
  match options !! i with
  | Some (EOption o) =>
      if decide (value o ∈ values_of (take i options)) then None else Some (EOption o)
  | _ => None
  end.

Definition first_seen (options : list entry) : list entry :=
  omap (kept options) (seq 0 (length options)).

(** ** Objects used as maps *)

(** The own enumerable string-keyed properties of a plain object, in
    property order: array-index keys in ascending numeric order, then the
    other keys in the order they were created. *)
Definition js_object (V : Type) : Type := list (string * V).

Definition digit_of (c : Ascii.ascii) : option N :=
  let n := Ascii.N_of_ascii c in
  if ((48 <=? n) && (n <=? 57))%N then Some (n - 48)%N else None.

Fixpoint parse_digits (acc : N) (s : string) : option N :=
  match s with
  | EmptyString => Some acc
  | String c rest => d ← digit_of c; parse_digits (10 * acc + d)%N rest
  end.

(** A key is an array index when it is the canonical decimal form of an
    integer from 0 to 2^32 - 2. *)
Definition array_index (key : string) : option N :=
  match key with
  | EmptyString => None
  | String c rest =>
      if Ascii.eqb c "0"%char && negb (String.eqb rest "") then None
      else n ← parse_digits 0 key; if (n <=? 4294967294)%N then Some n else None
  end.

(** Where a new array-index key goes: before the first property that is
    not an array index or is a greater one. *)
Fixpoint obj_insert_index {V} (n : N) (key : string) (v : V) (o : js_object V)
    : js_object V :=
  match o with
  | [] => [(key, v)]
  | (k', v') :: rest =>
      match array_index k' with
      | Some n' =>
          if (n' <? n)%N then (k', v') :: obj_insert_index n key v rest
          else (key, v) :: o
      | None => (key, v) :: o
      end
  end.

(** Defining a property: an existing key keeps its place and takes the new
    value; a new key is placed by the property order. *)
Definition obj_set {V} (key : string) (v : V) (o : js_object V) : js_object V :=
  if decide (key ∈ o.*1)
  then (λ kv, if decide (kv.1 = key) then (key, v) else kv) <$> o
  else match array_index key with
       | Some n => obj_insert_index n key v o
       | None => o ++ [(key, v)]
       end.

(** [{ ...target, ...source }], given the properties copied so far. *)
Definition obj_spread {V} (target source : js_object V) : js_object V :=
  foldl (λ acc kv, obj_set kv.1 kv.2 acc) target source.

(** [Object.values(o)]. *)
Definition obj_values {V} (o : js_object V) : list V := o.*2.

(** ** [fieldOptionsUnion] *)

(** The reducer [(acc, option) => ({ ...acc, [option.value]: option })]. *)
Definition union_step (acc : js_object FieldOption) (option : FieldOption)
    : js_object FieldOption :=
  obj_set (value option) option (obj_spread [] acc).

Definition fieldOptionsUnion (options1 options2 : list FieldOption) : list FieldOption :=
  let options1Map := foldl union_step [] options1 in
  let options2Map := foldl union_step [] options2 in
  obj_values (obj_spread (obj_spread [] options1Map) options2Map).

(** The last option of a list that carries a given value. *)
Definition latest (v : string) (options : list FieldOption) : option FieldOption :=
  last (List.filter (λ o, bool_decide (value o = v)) options).

(** ** [safeJSONParse] *)

(** The results of [typeof]. *)
Inductive js_type : Type :=
  | TUndefined | TObject | TBoolean | TNumber | TBigInt | TString | TSymbol | TFunction.

#[global] Instance js_type_eq_dec : EqDecision js_type.
Proof. solve_decision. Defined.

Definition typeof (v : js_value) : js_type :=
  match v with
  | JPrimitive PUndefined => TUndefined
  | JPrimitive PNull => TObject
  | JPrimitive (PBoolean _) => TBoolean
  | JPrimitive (PNumber _) => TNumber
  | JPrimitive (PBigInt _) => TBigInt
  | JPrimitive (PString _) => TString
  | JPrimitive (PSymbol _) => TSymbol
  | JArray _ | JObject _ => TObject
  | JFunction => TFunction
  end.

(** [Array.isArray] on a value. *)
Definition is_array (v : js_value) : bool :=
  match v with
  | JArray _ => true
  | _ => false
  end.

(** [try { body } catch (error) { handler }]. *)
Definition try_catch {A} (body : completion A) (handler : js_error → completion A)
    : completion A :=
  match body with
  | Normal a => Normal a
  | Throw e => handler e
  end.

(** A computation that either is finished or calls [JSON.parse] on a text
    and goes on with how that call completed. *)
Inductive parsing (A : Type) : Type :=
  | Done (c : completion A)
  | CallParse (text : string) (k : completion js_value → completion A).
Arguments Done {A} c.
Arguments CallParse {A} text k.

Definition safeJSONParse (input defaultValue : js_value) : parsing js_value :=
  match input with
  | JPrimitive PUndefined | JPrimitive PNull => Done (Normal defaultValue)
  | _ =>
      if bool_decide (typeof input = typeof defaultValue)
         && (if is_array input then is_array defaultValue else true)
      then Done (Normal input)
      else
        match input with
        | JPrimitive (PString text) =>
            CallParse text (λ called,
              try_catch
                (parsed ← called;
                 Normal (if decide (typeof parsed = typeof defaultValue)
                         then parsed else defaultValue))
                (λ _, Normal defaultValue))
        | _ => Done (Normal defaultValue)
        end
  end.

(** Running a computation with a given [JSON.parse]. *)
Definition run {A} (JSON_parse : string → completion js_value) (p : parsing A)
    : completion A :=
  match p with
  | Done c => c
  | CallParse text k => k (JSON_parse text)
  end.

(** Whether the computation calls [JSON.parse]. *)
Definition calls_parse {A} (p : parsing A) : bool :=
  match p with
  | Done _ => false
  | CallParse _ _ => true
  end.

(** ** Notions used in the proofs *)

(** The count map of the code and the multiplicity count of the
    specification describe the same counts: a key is present exactly
    when its multiplicity is positive, and then holds that number. *)
Definition counts_agree (m : gmap string nat) (c : gmultiset string) : Prop :=
  ∀ k, m !! k = if decide (0 < multiplicity k c) then Some (multiplicity k c) else None.

(** The finite map an object denotes. *)
Definition obj_map {V} (o : js_object V) : gmap string V := list_to_map o.

(** ** The store layer *)

Module Store.

Definition loc : Type := positive.

(** A value: a primitive, or a reference to a cell of the heap. *)
Inductive val : Type :=
  | VPrimitive (p : primitive)
  | VRef (l : loc).

(** A key of a [Map] and a member of a [Set]: a value up to
    [SameValueZero], under which [NaN] is equal to [NaN] and [+0] to [-0],
    two other primitives are equal when they are the same primitive, and
    two objects when they are the same object.  A [Map] and a [Set] take
    any value, whatever type the code declares for them. *)
Inductive key : Type :=
  | KUndefined
  | KNull
  | KBoolean (b : bool)
  | KNaN
  | KZero
  | KInfinity (negative : bool)
  | KFinite (negative : bool) (mantissa : positive) (exponent : Z)
  | KBigInt (z : Z)
  | KString (s : string)
  | KSymbol (id : positive)
  | KRef (l : loc).

#[global] Instance key_eq_dec : EqDecision key.
Proof. solve_decision. Defined.

#[global] Instance key_countable : Countable key.
Proof.
  refine (inj_countable'
    (λ k, match k with
          | KUndefined => (0, false, 1%positive, 0%Z, "")
          | KNull => (1, false, 1%positive, 0%Z, "")
          | KBoolean b => (2, b, 1%positive, 0%Z, "")
          | KNaN => (3, false, 1%positive, 0%Z, "")
          | KZero => (4, false, 1%positive, 0%Z, "")
          | KInfinity s => (5, s, 1%positive, 0%Z, "")
          | KFinite s m e => (6, s, m, e, "")
          | KBigInt z => (7, false, 1%positive, z, "")
          | KString x => (8, false, 1%positive, 0%Z, x)
          | KSymbol id => (9, false, id, 0%Z, "")
          | KRef l => (10, false, l, 0%Z, "")
          end)
    (λ t, match t with
          | (0, _, _, _, _) => KUndefined
          | (1, _, _, _, _) => KNull
          | (2, b, _, _, _) => KBoolean b
          | (3, _, _, _, _) => KNaN
          | (4, _, _, _, _) => KZero
          | (5, s, _, _, _) => KInfinity s
          | (6, s, m, e, _) => KFinite s m e
          | (7, _, _, z, _) => KBigInt z
          | (8, _, _, _, x) => KString x
          | (9, _, id, _, _) => KSymbol id
          | (_, _, l, _, _) => KRef l
          end) _).
  by intros [].
Defined.

Definition key_of (v : val) : key :=
  match v with
  | VRef l => KRef l
  | VPrimitive PUndefined => KUndefined
  | VPrimitive PNull => KNull
  | VPrimitive (PBoolean b) => KBoolean b
  | VPrimitive (PNumber n) =>
      match Prim2SF n with
      | S754_zero _ => KZero
      | S754_infinity s => KInfinity s
      | S754_nan => KNaN
      | S754_finite s m e => KFinite s m e
      end
  | VPrimitive (PBigInt z) => KBigInt z
  | VPrimitive (PString s) => KString s
  | VPrimitive (PSymbol id) => KSymbol id
  end.

(** A heap cell.  An object holds its properties with a string key, in
    property order, and those with a symbol key. *)
Inductive cell : Type :=
  | CArray (items : list val)
  | CObject (props : js_object val) (symbols : list (positive * val))
  | CMap (entries : gmap key nat)
  | CSet (members : gset key).

Abbreviation heap := (gmap loc cell).

(** How a call ends. *)
Inductive outcome (A : Type) : Type :=
  | Returns (a : A)
  | Throws (e : js_error).
Arguments Returns {A} a.
Arguments Throws {A} e.

Definition M (A : Type) : Type := heap → outcome A * heap.

#[global] Instance M_ret : MRet M := λ A a h, (Returns a, h).
#[global] Instance M_bind : MBind M := λ A B k m h,
  match m h with
  | (Returns a, h') => k a h'
  | (Throws e, h') => (Throws e, h')
  end.

Definition throw {A} (e : js_error) : M A := λ h, (Throws e, h).

(** The three accesses to the heap: creating a cell at an unused
    location, reading a cell, and overwriting one. *)
Definition alloc (c : cell) : M loc :=
  λ h, let l := fresh (dom h) in (Returns l, <[l := c]> h).
Definition read (l : loc) : M (option cell) := λ h, (Returns (h !! l), h).
Definition write (l : loc) (c : cell) : M unit := λ h, (Returns (), <[l := c]> h).

Fixpoint for_each {A S} (body : S → A → M S) (items : list A) (s : S) : M S :=
  match items with
  | [] => mret s
  | item :: rest => s' ← body s item; for_each body rest s'
  end.

(** Truthiness. *)
Definition truthy_primitive (p : primitive) : bool :=
  match p with
  | PUndefined | PNull => false
  | PBoolean b => b
  | PNumber n => negb (PrimFloat.is_zero n || PrimFloat.is_nan n)
  | PBigInt z => negb (z =? 0)%Z
  | PString s => negb (String.eqb s "")
  | PSymbol _ => true
  end.

Definition truthy (v : val) : bool :=
  match v with
  | VPrimitive p => truthy_primitive p
  | VRef _ => true
  end.

(** [v === s] for a string [s]. *)
Definition strictly_equals (v : val) (s : string) : bool :=
  match v with
  | VPrimitive (PString x) => String.eqb x s
  | _ => false
  end.

(** A property key: a string or a symbol. *)
Inductive prop_key : Type :=
  | PKString (s : string)
  | PKSymbol (id : positive).

(** The two conversions to a string that the code leaves to the language:
    [Number::toString] on a number, and on an object [ToPrimitive] with
    the methods the built-in prototypes give it ([toString], [join],
    [valueOf]), which read the heap, write nothing, and may end in a
    [TypeError].  They are parameters of the layer. *)
Record coercions : Type := {
  number_to_string : float → string;
  object_to_string : heap → loc → completion string }.

(** [ToPropertyKey(v)], the key of the computed property [[v]: ...]. *)
Definition to_property_key (c : coercions) (v : val) : M prop_key :=
  match v with
  | VPrimitive (PString s) => mret (PKString s)
  | VPrimitive (PSymbol id) => mret (PKSymbol id)
  | VPrimitive PUndefined => mret (PKString "undefined")
  | VPrimitive PNull => mret (PKString "null")
  | VPrimitive (PBoolean b) => mret (PKString (if b then "true" else "false"))
  | VPrimitive (PNumber n) => mret (PKString (number_to_string c n))
  | VPrimitive (PBigInt z) => mret (PKString (pretty z))
  | VRef l =>
      λ h, match object_to_string c h l with
           | Normal s => (Returns (PKString s), h)
           | Throw e => (Throws e, h)
           end
  end.

(** Defining a property with a symbol key, and copying such
    properties. *)
Definition sym_set (id : positive) (v : val) (symbols : list (positive * val))
    : list (positive * val) :=
  if decide (id ∈ symbols.*1)
  then (λ kv, if decide (kv.1 = id) then (id, v) else kv) <$> symbols
  else symbols ++ [(id, v)].

Definition sym_spread (target source : list (positive * val)) : list (positive * val) :=
  foldl (λ acc kv, sym_set kv.1 kv.2 acc) target source.

(** [Array.isArray(v)]. *)
Definition isArray (v : val) : M bool :=
  match v with
  | VRef l => c ← read l; mret (match c with Some (CArray _) => true | _ => false end)
  | VPrimitive _ => mret false
  end.

(** The elements an array method ([filter], [forEach], [reduce]) or a
    [for...of] visits.  Off an array the method is missing and the call is
    a [TypeError]; the one iteration not on an array made by the code, that
    of [list2], is behind the [Array.isArray] guards. *)
Definition array_items (v : val) : M (list val) :=
  match v with
  | VRef l =>
      c ← read l;
      match c with
      | Some (CArray items) => mret items
      | _ => throw TypeError
      end
  | VPrimitive _ => throw TypeError
  end.

(** [arr.push(v)]. *)
Definition push (arr : loc) (v : val) : M unit :=
  c ← read arr;
  match c with
  | Some (CArray items) => write arr (CArray (items ++ [v]))
  | _ => throw TypeError
  end.

(** [Map] methods. *)
Definition map_has (m : loc) (k : val) : M bool :=
  c ← read m;
  match c with
  | Some (CMap entries) => mret (bool_decide (is_Some (entries !! key_of k)))
  | _ => throw TypeError
  end.

Definition map_get (m : loc) (k : val) : M (option nat) :=
  c ← read m;
  match c with
  | Some (CMap entries) => mret (entries !! key_of k)
  | _ => throw TypeError
  end.

Definition map_set (m : loc) (k : val) (n : nat) : M unit :=
  c ← read m;
  match c with
  | Some (CMap entries) => write m (CMap (<[key_of k := n]> entries))
  | _ => throw TypeError
  end.

Definition map_delete (m : loc) (k : val) : M unit :=
  c ← read m;
  match c with
  | Some (CMap entries) => write m (CMap (delete (key_of k) entries))
  | _ => throw TypeError
  end.

(** [Set] methods. *)
Definition set_has (s : loc) (v : val) : M bool :=
  c ← read s;
  match c with
  | Some (CSet members) => mret (bool_decide (key_of v ∈ members))
  | _ => throw TypeError
  end.

Definition set_add (s : loc) (v : val) : M unit :=
  c ← read s;
  match c with
  | Some (CSet members) => write s (CSet ({[key_of v]} ∪ members))
  | _ => throw TypeError
  end.

(** [option.value]: a [TypeError] on [undefined] and [null]; the property
    when the value is an object that has it; [undefined] otherwise. *)
Definition get_value (option : val) : M val :=
  match option with
  | VPrimitive PUndefined | VPrimitive PNull => throw TypeError
  | VPrimitive _ => mret (VPrimitive PUndefined)
  | VRef l =>
      c ← read l;
      mret (match c with
            | Some (CObject props _) =>
                default (VPrimitive PUndefined) (obj_map props !! "value")
            | _ => VPrimitive PUndefined
            end)
  end.

(** The properties [{ ...v }] copies, those with a string key and those
    with a symbol key: the properties of an object, none of anything else
    the code spreads. *)
Definition obj_props (v : val) : M (js_object val * list (positive * val)) :=
  match v with
  | VRef l =>
      c ← read l;
      mret (match c with
            | Some (CObject props symbols) => (props, symbols)
            | _ => ([], [])
            end)
  | VPrimitive _ => mret ([], [])
  end.

(** *** [orderedList] *)

Definition count_body (countMap : loc) (_ : unit) (item : val) : M unit :=
  c ← map_get countMap item;
  map_set countMap item (default 0 c + 1).

Definition take_body (result countMap : loc) (_ : unit) (item : val) : M unit :=
  has ← map_has countMap item;
  if has : bool then
    _ ← push result item;
    c ← map_get countMap item;
    let count := default 0 c in
    if decide (1 < count) then map_set countMap item (count - 1)
    else map_delete countMap item
  else mret ().

Definition listed_body (result countMap : loc) (u : unit) (item : val) : M unit :=
  if strictly_equals item "_" then mret ()
  else take_body result countMap u item.

Definition orderedList (list1 list2 : val) : M val :=
  a1 ← isArray list1;
  if negb a1 then empty ← alloc (CArray []); mret (VRef empty)
  else
    a2 ← isArray list2;
    a1 ← isArray list1;
    if negb a2 && a1 then mret list1
    else
      result ← alloc (CArray []);
      items1 ← array_items list1;
      remaining ← alloc (CArray (List.filter truthy items1));
      countMap ← alloc (CMap ∅);
      rest ← array_items (VRef remaining);
      _ ← for_each (count_body countMap) rest ();
      items2 ← array_items list2;
      _ ← for_each (listed_body result countMap) items2 ();
      rest ← array_items (VRef remaining);
      _ ← for_each (take_body result countMap) rest ();
      mret (VRef result).

(** *** [deduplicateOptions] *)

Definition dedup_body (seenValues deduplicatedOptions : loc) (_ : unit) (option : val)
    : M unit :=
  v ← get_value option;
  has ← set_has seenValues v;
  if has : bool then mret ()
  else
    _ ← set_add seenValues v;
    push deduplicatedOptions option.

Definition deduplicateOptions (options : val) : M val :=
  seenValues ← alloc (CSet ∅);
  deduplicatedOptions ← alloc (CArray []);
  items ← array_items options;
  filtered ← alloc (CArray (List.filter truthy items));
  rest ← array_items (VRef filtered);
  _ ← for_each (dedup_body seenValues deduplicatedOptions) rest ();
  mret (VRef deduplicatedOptions).

(** *** [fieldOptionsUnion] *)

(** The reducer [(acc, option) => ({ ...acc, [option.value]: option })]. *)
Definition union_body (c : coercions) (acc option : val) : M val :=
  own ← obj_props acc;
  v ← get_value option;
  key ← to_property_key c v;
  next ← alloc (match key with
                | PKString s =>
                    CObject (obj_set s option (obj_spread [] own.1)) (sym_spread [] own.2)
                | PKSymbol id =>
                    CObject (obj_spread [] own.1) (sym_set id option (sym_spread [] own.2))
                end);
  mret (VRef next).

Definition reduce_options (c : coercions) (options : val) : M val :=
  items ← array_items options;
  init ← alloc (CObject [] []);
  for_each (union_body c) items (VRef init).

(** [Object.values] lists the values under the string keys only. *)
Definition fieldOptionsUnion (c : coercions) (options1 options2 : val) : M val :=
  options1Map ← reduce_options c options1;
  options2Map ← reduce_options c options2;
  own1 ← obj_props options1Map;
  own2 ← obj_props options2Map;
  merged ← alloc (CObject (obj_spread (obj_spread [] own1.1) own2.1)
                          (sym_spread (sym_spread [] own1.2) own2.2));
  own ← obj_props (VRef merged);
  values ← alloc (CArray (obj_values own.1));
  mret (VRef values).

End Store.

(** ** Notions used in the proofs about the store layer *)

(** [keeps h0 m Q]: run from any heap that still holds every cell of [h0]
    unchanged, [m] ends in such a heap, and a returned value satisfies
    [Q]. *)
Definition keeps (h0 : gmap Store.loc Store.cell) {A} (m : Store.M A) (Q : A → Prop)
    : Prop :=
  ∀ h, h0 ⊆ h → h0 ⊆ (m h).2 ∧ ∀ a, (m h).1 = Store.Returns a → Q a.

(** A string token as a stored value. *)
Definition str (s : string) : Store.val := Store.VPrimitive (PString s).

(** [represents h v e]: in the heap [h] the stored value [v] is the entry
    [e]: [null], [undefined], or a reference to an object whose [value]
    and [label] properties are the strings of the option. *)
Inductive represents (h : gmap Store.loc Store.cell) : Store.val → entry → Prop :=
  | represents_null : represents h (Store.VPrimitive PNull) ENull
  | represents_undefined : represents h (Store.VPrimitive PUndefined) EUndefined
  | represents_option l props symbols o :
      h !! l = Some (Store.CObject props symbols) →
      obj_map props !! "value" = Some (str (value o)) →
      obj_map props !! "label" = Some (str (label o)) →
      represents h (Store.VRef l) (EOption o).

(** [related hb props acc]: the stored object has the keys of the
    functional one, in the same order, each holding a reference to the
    option held there. *)
Definition related (hb : gmap Store.loc Store.cell)
    (props : js_object Store.val) (acc : js_object FieldOption) : Prop :=
  Forall2 (λ kv ko, kv.1 = ko.1 ∧ represents hb kv.2 (EOption ko.2)) props acc.

(** A [Map] and a [Set] of strings, as the cells hold them. *)
Definition string_keys (m : gmap string nat) : gmap Store.key nat := kmap Store.KString m.


(** A small heap to run the store layer on: two arrays of tokens, three
    option objects and two arrays of options. *)
Definition sample_heap : gmap Store.loc Store.cell :=
  {[ 1%positive := Store.CArray [str "a"; str ""; str "b"];
     2%positive := Store.CArray [str "b"; str "_"];
     3%positive := Store.CObject [("value", str "yes"); ("label", str "Yes")] [];
     4%positive := Store.CObject [("value", str "yes"); ("label", str "Y")] [];
     5%positive := Store.CObject [("value", str "no"); ("label", str "No")] [];
     6%positive := Store.CArray [Store.VRef 3%positive; Store.VPrimitive PNull;
                                 Store.VRef 4%positive];
     7%positive := Store.CArray [Store.VRef 4%positive; Store.VRef 5%positive] ]}.

(** Conversions to run the layer with on that heap, where no number and
    no array is made a property key: a plain object converts to
    ["[object Object]"]. *)
Definition sample_coercions : Store.coercions :=
  {| Store.number_to_string := λ _, "NaN";
     Store.object_to_string := λ _ _, Normal "[object Object]" |}.

(** ** Further functions of the utility module and of the components *)

(** *** Well-formed objects *)

(** The property order: an array-index key comes before every other key
    and before every greater array-index key. *)
Definition key_before (k1 k2 : string) : Prop :=
  match array_index k1, array_index k2 with
  | Some n1, Some n2 => (n1 < n2)%N
  | Some _, None => True
  | None, Some _ => False
  | None, None => True
  end.

(** The property list of an object: no key twice, keys in property
    order. *)
Definition obj_wf {V} (o : js_object V) : Prop :=
  NoDup o.*1 ∧ StronglySorted key_before o.*1.

(** [Object.entries(o)] and [Object.fromEntries(entries)]. *)
Definition obj_entries {V} (o : js_object V) : list (string * V) := o.

Definition obj_from_entries {V} (entries : list (string * V)) : js_object V :=
  foldl (λ acc kv, obj_set kv.1 kv.2 acc) [] entries.

(** *** [mapObjectValues] *)

(** [entries.map(([k, v]) => [k, func(v)])] for a callback that may
    throw: the first throw ends the call. *)
Fixpoint map_entries {V W} (func : V → completion W) (entries : list (string * V))
    : completion (list (string * W)) :=
  match entries with
  | [] => Normal []
  | kv :: rest =>
      w ← func kv.2;
      rest' ← map_entries func rest;
      Normal ((kv.1, w) :: rest')
  end.

Definition mapObjectValues {V W} (obj : js_object V) (func : V → completion W)
    : completion (js_object W) :=
  entries ← map_entries func (obj_entries obj);
  Normal (obj_from_entries entries).

(** *** [getTopNWithOther] *)

(** The values of the object are numbers, IEEE 754 doubles, and the
    differences, sums and comparisons are those of doubles; [topN] is the
    integer the [slice] calls convert their argument to. *)

(** The comparator [(a, b) => b[1] - a[1]]. *)
Definition comparefn (a b : string * float) : float := (b.2 - a.2)%float.

(** What the sort reads off the comparator's result [v] for [a] and [b]:
    [a] goes first when [v < 0] and [b] when [v > 0]; otherwise, also
    when [v] is [NaN], neither does. *)
Inductive sort_order : Type := SortsBefore | SortsSame | SortsAfter.

#[global] Instance sort_order_eq_dec : EqDecision sort_order.
Proof. solve_decision. Defined.

Definition sort_compare (a b : string * float) : sort_order :=
  let v := comparefn a b in
  if (v <? 0)%float then SortsBefore
  else if (0 <? v)%float then SortsAfter
  else SortsSame.

Definition sorts (o : sort_order) (a b : string * float) : bool :=
  bool_decide (sort_compare a b = o).

(** A consistent comparator for the entries being sorted, as the language
    defines it: its result is never [NaN]; every entry is the same as
    itself; being the same is symmetric and transitive; going before is
    transitive, and so is going after. *)
Definition consistent_comparator (entries : list (string * float)) : bool :=
  forallb (λ a,
    sorts SortsSame a a
    && forallb (λ b,
         negb (PrimFloat.is_nan (comparefn a b))
         && implb (sorts SortsSame a b) (sorts SortsSame b a)
         && forallb (λ c,
              implb (sorts SortsSame a b && sorts SortsSame b c) (sorts SortsSame a c)
              && implb (sorts SortsBefore a b && sorts SortsBefore b c) (sorts SortsBefore a c)
              && implb (sorts SortsAfter a b && sorts SortsAfter b c) (sorts SortsAfter a c))
              entries)
         entries)
    entries.

(** The stable sort, by insertion: an entry goes behind the entries of
    the sorted rest that the comparator puts before it. *)
Fixpoint insert_desc (x : string * float) (sorted : list (string * float))
    : list (string * float) :=
  match sorted with
  | [] => [x]
  | y :: rest => if sorts SortsAfter x y then y :: insert_desc x rest else x :: sorted
  end.

Definition sort_desc (entries : list (string * float)) : list (string * float) :=
  foldr insert_desc [] entries.

(** [entries.sort(comparefn)]: with a consistent comparator the order is
    that of the stable sort; with another one, as when a value is [NaN],
    the order is the implementation's, here [engine_order]. *)
Definition sort_entries (engine_order : list (string * float) → list (string * float))
    (entries : list (string * float)) : list (string * float) :=
  if consistent_comparator entries then sort_desc entries else engine_order entries.

(** The index [slice] turns a start or end argument into: counted from
    the end when negative, clamped to the length. *)
Definition slice_index (len : nat) (i : Z) : nat :=
  if (i <? 0)%Z then Z.to_nat (Z.max (Z.of_nat len + i) 0)
  else Z.to_nat (Z.min i (Z.of_nat len)).

(** [entries.reduce((sum, [, value]) => sum + value, 0)]. *)
Definition sum_values (entries : list (string * float)) : float :=
  foldl (λ sum kv, (sum + kv.2)%float) 0%float entries.

Definition getTopNWithOther
    (engine_order : list (string * float) → list (string * float))
    (obj : js_object float) (topN : Z) : js_object float :=
  let sortedEntries := sort_entries engine_order (obj_entries obj) in
  let split := slice_index (length sortedEntries) topN in
  let topEntries := take split sortedEntries in
  let otherSum := sum_values (drop split sortedEntries) in
  let result := obj_from_entries topEntries in
  if (0 <? otherSum)%float then obj_set "other" otherSum result else result.

(** *** The users page *)

(** A clinic as the users page reads it. *)
Record Clinic : Type := { clinic_id : string; clinic_name : string }.

(** [getClinicName]: [clinics.find(...)?.name || '']. *)
Definition getClinicName (clinics : list Clinic) (clinicId : string) : string :=
  match List.find (λ clinic, String.eqb (clinic_id clinic) clinicId) clinics with
  | Some clinic => if truthy (clinic_name clinic) then clinic_name clinic else ""
  | None => ""
  end.

(** *** The options offered by the form builder *)

Definition YesNoOptions : list FieldOption :=
  [ {| value := "yes"; label := "Yes" |}; {| value := "no"; label := "No" |} ].

(** [fieldOptionsUnion(YesNoOptions, item.options || [])], the data of the
    select; [item.options] may be missing. *)
Definition select_data (options : option (list FieldOption)) : list FieldOption :=
  fieldOptionsUnion YesNoOptions (default [] options).

(** The values of a list in the order of their first occurrences. *)
Fixpoint first_occurrences (l : list string) : list string :=
  match l with
  | [] => []
  | x :: rest => x :: filter (λ y, y ≠ x) (first_occurrences rest)
  end.

(** *** [camelCaseKeys] *)

(** The letters [[a-z]] matches under the [i] flag. *)
Definition is_letter (c : Ascii.ascii) : bool :=
  let n := Ascii.N_of_ascii c in
  (((65 <=? n) && (n <=? 90)) || ((97 <=? n) && (n <=? 122)))%N.

Definition is_separator (c : Ascii.ascii) : bool :=
  Ascii.eqb c "-"%char || Ascii.eqb c "_"%char.

(** [toUpperCase] on a letter. *)
Definition to_upper (c : Ascii.ascii) : Ascii.ascii :=
  let n := Ascii.N_of_ascii c in
  if ((97 <=? n) && (n <=? 122))%N then Ascii.ascii_of_N (n - 32) else c.

(** [key.replace(/([-_][a-z])/gi, ...)]: scanning from the left, a
    separator followed by a letter becomes the upper-case letter, and the
    scan goes on after the letter. *)
Fixpoint camel_key (key : string) : string :=
  match key with
  | EmptyString => EmptyString
  | String c rest =>
      match rest with
      | String d rest' =>
          if is_separator c && is_letter d then String (to_upper d) (camel_key rest')
          else String c (camel_key rest)
      | EmptyString => String c EmptyString
      end
  end.

(** [camelCaseKeys], given what [JSON.stringify] does on a value: whether
    it throws.  A value that is no object, and a value [JSON.stringify]
    throws on, is returned as it is. *)
Fixpoint camelCaseKeys (stringify_throws : js_value → bool) (obj : js_value) : js_value :=
  match obj with
  | JPrimitive _ | JFunction => obj
  | JArray items =>
      if stringify_throws obj then obj
      else JArray (map (camelCaseKeys stringify_throws) items)
  | JObject props =>
      if stringify_throws obj then obj
      else JObject
             (foldl (λ acc kv,
                       obj_set (camel_key kv.1) (camelCaseKeys stringify_throws kv.2) acc)
                    [] props)
  end.

(** A lower-case letter. *)
Definition is_lower (c : Ascii.ascii) : bool :=
  let n := Ascii.N_of_ascii c in ((97 <=? n) && (n <=? 122))%N.

(** Whether a key holds a separator followed by a lower-case letter. *)
Fixpoint sep_then_lower (key : string) : bool :=
  match key with
  | String c (String d _ as rest) => (is_separator c && is_lower d) || sep_then_lower rest
  | _ => false
  end.

(** Whether the keys of the objects in a value, at every depth, satisfy a
    test. *)
Fixpoint all_keys (test : string → bool) (v : js_value) : bool :=
  match v with
  | JPrimitive _ | JFunction => true
  | JArray items => forallb (all_keys test) items
  | JObject props => forallb (λ kv, test kv.1 && all_keys test kv.2) props
  end.

(** Whether [JSON.stringify] throws on none of the arrays and objects of
    a value that [camelCaseKeys] is called on. *)
Fixpoint never_throws (stringify_throws : js_value → bool) (v : js_value) : bool :=
  match v with
  | JPrimitive _ | JFunction => true
  | JArray items =>
      negb (stringify_throws v) && forallb (never_throws stringify_throws) items
  | JObject props =>
      negb (stringify_throws v)
      && forallb (λ kv, never_throws stringify_throws kv.2) props
  end.

(** What [JSON.stringify] does on the arrays and objects among these
    values, which hold no cycle: it throws on those that hold a [BigInt],
    at any depth. *)
Fixpoint holds_bigint (v : js_value) : bool :=
  match v with
  | JPrimitive (PBigInt _) => true
  | JPrimitive _ | JFunction => false
  | JArray items => existsb holds_bigint items
  | JObject props => existsb (λ kv, holds_bigint kv.2) props
  end.

(** The objects in a value, at every depth, list their properties in
    JavaScript's property order, each key once. *)
Fixpoint wf_value (v : js_value) : Prop :=
  match v with
  | JPrimitive _ | JFunction => True
  | JArray items => foldr (λ item rest, wf_value item ∧ rest) True items
  | JObject props => obj_wf props ∧ foldr (λ kv rest, wf_value kv.2 ∧ rest) True props
  end.

(** ** Examples *)

Example orderedList_ex1 :
  orderedList (Arr ["a"; "b"; "a"]) (Arr ["b"; "_"; "a"]) = Normal (Arr ["b"; "a"; "a"]).
Proof. vm_compute. reflexivity. Qed.

Example reference_ex1 :
  reference_reorder ["a"; "b"; "a"] ["b"; "_"; "a"] = ["b"; "a"; "a"].
Proof. vm_compute. reflexivity. Qed.

Example deduplicateOptions_ex1 :
  deduplicateOptions
    (Arr [EOption {| value := "a"; label := "A" |}; ENull;
          EOption {| value := "a"; label := "A2" |}])
  = Normal (Arr [EOption {| value := "a"; label := "A" |}]).
Proof. by vm_compute. Qed.

Example first_seen_ex1 :
  first_seen [EOption {| value := "a"; label := "A" |}; ENull;
              EOption {| value := "a"; label := "A2" |}]
  = [EOption {| value := "a"; label := "A" |}].
Proof. by vm_compute. Qed.

Example fieldOptionsUnion_ex1 :
  fieldOptionsUnion [{| value := "yes"; label := "Yes" |}]
                    [{| value := "yes"; label := "Y" |}; {| value := "no"; label := "No" |}]
  = [{| value := "yes"; label := "Y" |}; {| value := "no"; label := "No" |}].
Proof. by vm_compute. Qed.

Example fieldOptionsUnion_ex2 :
  fieldOptionsUnion [{| value := "b"; label := "B" |}; {| value := "10"; label := "ten" |}]
                    [{| value := "2"; label := "two" |}; {| value := "02"; label := "o2" |}]
  = [{| value := "2"; label := "two" |}; {| value := "10"; label := "ten" |};
     {| value := "b"; label := "B" |}; {| value := "02"; label := "o2" |}].
Proof. by vm_compute. Qed.

Example store_orderedList_ex1 :
  ∃ h', Store.orderedList (Store.VRef 1%positive) (Store.VRef 2%positive) sample_heap
        = (Store.Returns (Store.VRef 8%positive), h')
        ∧ h' !! 8%positive = Some (Store.CArray [str "b"; str "a"]).
Proof. eexists. split; by vm_compute. Qed.

Example store_orderedList_ex2 :
  Store.orderedList (Store.VRef 1%positive) (Store.VPrimitive PUndefined) sample_heap
  = (Store.Returns (Store.VRef 1%positive), sample_heap).
Proof. by vm_compute. Qed.

Example store_deduplicateOptions_ex1 :
  ∃ h', Store.deduplicateOptions (Store.VRef 6%positive) sample_heap
        = (Store.Returns (Store.VRef 9%positive), h')
        ∧ h' !! 9%positive = Some (Store.CArray [Store.VRef 3%positive]).
Proof. eexists. split; by vm_compute. Qed.

Example store_deduplicateOptions_ex2 :
  (Store.deduplicateOptions (Store.VPrimitive PNull) sample_heap).1 = Store.Throws TypeError.
Proof. by vm_compute. Qed.

(** Arguments that are not of the declared types: arrays of strings where
    options are declared, options where strings are.  A string has no
    [value], so every item goes under the key ["undefined"]. *)
Example store_fieldOptionsUnion_ex1 :
  ∃ h', Store.fieldOptionsUnion sample_coercions (Store.VRef 1%positive)
          (Store.VRef 2%positive) sample_heap
        = (Store.Returns (Store.VRef 16%positive), h')
        ∧ h' !! 16%positive = Some (Store.CArray [str "_"]).
Proof. eexists. split; by vm_compute. Qed.

Example store_deduplicateOptions_ex3 :
  ∃ h', Store.deduplicateOptions (Store.VRef 1%positive) sample_heap
        = (Store.Returns (Store.VRef 9%positive), h')
        ∧ h' !! 9%positive = Some (Store.CArray [str "a"]).
Proof. eexists. split; by vm_compute. Qed.

Example store_orderedList_ex3 :
  ∃ h', Store.orderedList (Store.VRef 7%positive) (Store.VRef 6%positive) sample_heap
        = (Store.Returns (Store.VRef 8%positive), h')
        ∧ h' !! 8%positive
          = Some (Store.CArray [Store.VRef 4%positive; Store.VRef 5%positive]).
Proof. eexists. split; by vm_compute. Qed.

Example store_fieldOptionsUnion_ex2 :
  (Store.fieldOptionsUnion sample_coercions (Store.VRef 6%positive) (Store.VRef 2%positive)
     sample_heap).1
  = Store.Throws TypeError.
Proof. by vm_compute. Qed.

(** [getTopNWithOther]: the two largest of four, the rest under [other];
    a sum of doubles that rounds; and values with a [NaN], for which the
    comparator is not consistent. *)
Example getTopNWithOther_ex1 :
  getTopNWithOther (λ l, l)
    [("a", 5%float); ("b", 7%float); ("c", 1%float); ("d", 2%float)] 2
  = [("b", 7%float); ("a", 5%float); ("other", 3%float)].
Proof. vm_compute. reflexivity. Qed.

Example getTopNWithOther_ex2 :
  getTopNWithOther (λ l, l)
    [("a", 9007199254740992%float); ("b", 1%float); ("c", 1%float)] 0
  = [("other", 9007199254740992%float)].
Proof. vm_compute. reflexivity. Qed.

Example consistent_comparator_ex1 :
  consistent_comparator [("a", 1%float); ("b", PrimFloat.nan); ("c", 2%float)] = false.
Proof. vm_compute. reflexivity. Qed.

(** ** Proofs about [orderedList] *)

Section reorder_proofs.
Implicit Types (m : gmap string nat) (c : gmultiset string).
Implicit Types (l out : list string) (k item : string).

Lemma counts_agree_empty : counts_agree ∅ ∅.
Proof. intros k. rewrite lookup_empty, multiplicity_empty. by case_decide; [lia|]. Qed.

Lemma counts_agree_count_item m c item :
  counts_agree m c → counts_agree (count_item m item) ({[+ item +]} ⊎ c).
Proof.
  intros Hmc k. unfold count_item.
  rewrite multiplicity_disj_union, multiplicity_singleton.
  destruct (decide (k = item)) as [->|Hne].
  - rewrite lookup_insert_eq, (Hmc item).
    repeat case_decide; simpl; try lia; f_equal; lia.
  - rewrite lookup_insert_ne by done. by rewrite (Hmc k).
Qed.

Lemma counts_agree_build l m c :
  counts_agree m c →
  counts_agree (foldl count_item m l) (list_to_set_disj l ⊎ c).
Proof.
  revert m c. induction l as [|x l IH]; intros m c Hmc; simpl.
  - by rewrite (left_id_L ∅ (⊎)).
  - replace ({[+ x +]} ⊎ list_to_set_disj l ⊎ c)
      with (list_to_set_disj l ⊎ ({[+ x +]} ⊎ c)) by multiset_solver.
    apply IH. by apply counts_agree_count_item.
Qed.

Lemma counts_agree_take_one m c out item :
  counts_agree m c →
  ∃ m' c', take_one (out, m) item = ((reference_take (out, c) item).1, m')
           ∧ (reference_take (out, c) item).2 = c'
           ∧ counts_agree m' c'.
Proof.
  intros Hmc. unfold take_one, reference_take; simpl.
  rewrite (Hmc item). case_decide as Hpos; simpl.
  - eexists _, _. split; [done|]. split; [done|].
    intros k. rewrite multiplicity_difference, multiplicity_singleton.
    case_decide as H1; destruct (decide (k = item)) as [->|Hne].
    + rewrite lookup_insert_eq. rewrite decide_True by lia. done.
    + rewrite lookup_insert_ne by done. rewrite (Hmc k).
      rewrite Nat.sub_0_r. done.
    + rewrite lookup_delete_eq. rewrite decide_False by lia. done.
    + rewrite lookup_delete_ne by done. rewrite (Hmc k).
      rewrite Nat.sub_0_r. done.
  - eexists _, _. done.
Qed.

Lemma walk_take_one l m c out :
  counts_agree m c →
  (foldl take_one (out, m) l).1 = (foldl reference_take (out, c) l).1
  ∧ counts_agree (foldl take_one (out, m) l).2 (foldl reference_take (out, c) l).2.
Proof.
  revert m c out. induction l as [|x l IH]; intros m c out Hmc; cbn [foldl]; [done|].
  destruct (counts_agree_take_one m c out x Hmc) as (m' & c' & -> & Hc & Hmc').
  destruct (reference_take (out, c) x) as [out' c0] eqn:E; simpl in *; subst c0.
  by apply IH.
Qed.

Lemma walk_place_listed l m c out :
  counts_agree m c →
  (foldl place_listed (out, m) l).1 = (foldl reference_listed (out, c) l).1
  ∧ counts_agree (foldl place_listed (out, m) l).2 (foldl reference_listed (out, c) l).2.
Proof.
  revert m c out.
  induction l as [|x l IH]; intros m c out Hmc; cbn [foldl]; [done|].
  unfold place_listed at 2 4, reference_listed at 2 4.
  destruct (String.eqb_spec x "_") as [->|Hne].
  - rewrite decide_True by done. by apply IH.
  - rewrite decide_False by done.
    destruct (counts_agree_take_one m c out x Hmc) as (m' & c' & -> & Hc & Hmc').
    destruct (reference_take (out, c) x) as [out' c0] eqn:E; simpl in *; subst c0.
    by apply IH.
Qed.

(** On two arrays the code computes the reference algorithm run on the
    truthy tokens of [list1]. *)
Lemma orderedList_reference l1 l2 :
  orderedList (Arr l1) (Arr l2)
  = Normal (Arr (reference_reorder (List.filter truthy l1) l2)).
Proof.
  unfold orderedList, reference_reorder; simpl. do 2 f_equal.
  set (rem := List.filter truthy l1).
  assert (Hb : counts_agree (foldl count_item ∅ rem) (list_to_set_disj rem)).
  { rewrite <- (right_id_L ∅ (⊎) (list_to_set_disj rem)).
    apply counts_agree_build, counts_agree_empty. }
  destruct (walk_place_listed l2 _ _ [] Hb) as [H1 H2].
  destruct (foldl place_listed _ l2) as [out m] eqn:E1.
  destruct (foldl reference_listed _ l2) as [out' c] eqn:E2.
  simpl in *; subst out'.
  by destruct (walk_take_one rem m c out H2) as [-> _].
Qed.

Lemma reference_take_conserves st item :
  list_to_set_disj (reference_take st item).1 ⊎ (reference_take st item).2
  = list_to_set_disj st.1 ⊎ st.2.
Proof.
  destruct st as [out c]. unfold reference_take; simpl.
  case_decide; simpl; [|done].
  rewrite list_to_set_disj_app, list_to_set_disj_cons, list_to_set_disj_nil.
  multiset_solver.
Qed.

Lemma walk_conserves (body : list string * gmultiset string → string → _) l :
  (∀ st item, list_to_set_disj (body st item).1 ⊎ (body st item).2
              = list_to_set_disj st.1 ⊎ st.2) →
  ∀ st, list_to_set_disj (foldl body st l).1 ⊎ (foldl body st l).2
        = list_to_set_disj st.1 ⊎ st.2.
Proof.
  intros Hbody. induction l as [|x l IH]; intros st; simpl; [done|].
  by rewrite IH, Hbody.
Qed.

Lemma reference_listed_conserves st item :
  list_to_set_disj (reference_listed st item).1 ⊎ (reference_listed st item).2
  = list_to_set_disj st.1 ⊎ st.2.
Proof.
  unfold reference_listed. case_decide; [done|]. apply reference_take_conserves.
Qed.

(** Walking [l] uses up every count that [l] can pay for. *)
Lemma walk_exhausts l st :
  st.2 ⊆ list_to_set_disj l → (foldl reference_take st l).2 = ∅.
Proof.
  revert st. induction l as [|x l IH]; intros [out c] Hsub; simpl in *.
  - multiset_solver.
  - apply IH. unfold reference_take; simpl.
    case_decide; simpl; multiset_solver.
Qed.

(** With every count still available the walk emits [l] itself. *)
Lemma walk_emits_all l out c :
  list_to_set_disj l ⊆ c →
  foldl reference_take (out, c) l = (out ++ l, c ∖ list_to_set_disj l).
Proof.
  revert out c. induction l as [|x l IH]; intros out c Hsub; simpl in *.
  - rewrite app_nil_r. f_equal. multiset_solver.
  - unfold reference_take at 2; simpl.
    rewrite decide_True by multiset_solver.
    rewrite IH by multiset_solver.
    rewrite <- app_assoc. f_equal. multiset_solver.
Qed.

Lemma multiplicity_list_to_set_disj l k :
  multiplicity k (list_to_set_disj l : gmultiset string) = count_occ String.string_dec l k.
Proof.
  induction l as [|x l IH]; simpl.
  - apply multiplicity_empty.
  - rewrite multiplicity_disj_union, multiplicity_singleton, IH.
    destruct (String.string_dec x k) as [->|Hne].
    + by rewrite decide_True.
    + by rewrite decide_False by congruence.
Qed.

Lemma list_to_set_disj_inj_perm l1 l2 :
  (list_to_set_disj l1 : gmultiset string) = list_to_set_disj l2 → l1 ≡ₚ l2.
Proof.
  intros Heq. apply (Permutation_count_occ String.string_dec). intros k.
  by rewrite <- !multiplicity_list_to_set_disj, Heq.
Qed.

Lemma reference_reorder_perm l1 l2 : reference_reorder l1 l2 ≡ₚ l1.
Proof.
  unfold reference_reorder.
  set (st1 := foldl reference_listed ([], list_to_set_disj l1) l2).
  assert (H1 : list_to_set_disj st1.1 ⊎ st1.2 = list_to_set_disj l1).
  { unfold st1. rewrite (walk_conserves _ l2 reference_listed_conserves). simpl.
    multiset_solver. }
  assert (H2 := walk_conserves _ l1 reference_take_conserves st1).
  rewrite walk_exhausts in H2 by multiset_solver.
  apply list_to_set_disj_inj_perm. multiset_solver.
Qed.

Lemma reference_reorder_nil l1 : reference_reorder l1 [] = l1.
Proof.
  unfold reference_reorder; simpl. by rewrite walk_emits_all.
Qed.

Lemma filter_truthy_no_empty l : "" ∉ List.filter truthy l.
Proof.
  rewrite list_elem_of_In, filter_In. by intros [_ ?].
Qed.

Lemma filter_truthy_id l : "" ∉ l → List.filter truthy l = l.
Proof.
  induction l as [|x l IH]; [done|]. rewrite not_elem_of_cons. intros [Hx Hl].
  cbn [List.filter]. unfold truthy at 1.
  destruct (String.eqb_spec x "") as [->|_]; [done|]. cbn [negb]. by rewrite IH.
Qed.

(** A token that is never counted is never emitted, so dropping it from
    [list2] changes nothing. *)
Lemma walk_listed_skips_uncounted l2 st :
  multiplicity "" st.2 = 0 →
  foldl reference_listed st (List.filter truthy l2) = foldl reference_listed st l2.
Proof.
  revert st. induction l2 as [|x l2 IH]; intros [out c] Hc; simpl in *; [done|].
  assert (Hstep : multiplicity "" (reference_listed (out, c) x).2 = 0).
  { unfold reference_listed, reference_take; simpl.
    repeat case_decide; simpl; try done.
    rewrite multiplicity_difference. lia. }
  unfold truthy at 1. destruct (String.eqb_spec x "") as [->|Hne]; simpl.
  - rewrite (IH (out, c) Hc). f_equal.
    unfold reference_listed, reference_take; simpl.
    repeat case_decide; try done; lia.
  - by rewrite IH.
Qed.
End reorder_proofs.

(** ** Properties of [orderedList] *)

(** C1, as the specification states it, fails: an empty-string token of
    [list1] is missing from the output. *)
Lemma orderedList_multiset_counterexample :
  orderedList (Arr [""; "a"]) (Arr ["a"]) = Normal (Arr ["a"])
  ∧ ¬ (["a"] ≡ₚ [""; "a"]).
Proof.
  split; [by vm_compute|].
  intros Hperm. apply Permutation_length in Hperm. discriminate.
Qed.

(** C1 (amended): on two arrays [orderedList] returns an array whose
    multiset of elements is that of the non-empty tokens of [list1]; every
    non-empty token occurs in the output exactly as often as in [list1];
    when [list1] holds no empty string the output is a permutation of
    [list1]. *)
Theorem orderedList_multiset (l1 l2 : list string) :
  ∃ out, orderedList (Arr l1) (Arr l2) = Normal (Arr out)
         ∧ out ≡ₚ List.filter truthy l1
         ∧ ("" ∉ l1 → out ≡ₚ l1)
         ∧ ∀ token, token ≠ "" →
             count_occ String.string_dec out token = count_occ String.string_dec l1 token.
Proof.
  eexists. split; [apply orderedList_reference|].
  assert (Hperm := reference_reorder_perm (List.filter truthy l1) l2).
  split; [done|]. split; [intros Hl1; by rewrite Hperm, filter_truthy_id|].
  intros token Hne.
  rewrite (proj1 (Permutation_count_occ String.string_dec _ _) Hperm token).
  clear Hperm. induction l1 as [|x l1 IH]; [done|]. cbn [List.filter].
  unfold truthy at 1. destruct (String.eqb_spec x "") as [->|Hx]; cbn [negb].
  - by rewrite (count_occ_cons_neq _ l1) by congruence.
  - destruct (decide (x = token)) as [->|Hxt].
    + rewrite !count_occ_cons_eq by done. by rewrite IH.
    + by rewrite !count_occ_cons_neq by done.
Qed.

(** C2, as the specification states it, fails: the reference algorithm
    counts the empty string like any other token, the code drops it. *)
Lemma orderedList_reference_counterexample :
  orderedList (Arr [""; "a"]) (Arr []) ≠ Normal (Arr (reference_reorder [""; "a"] [])).
Proof. by vm_compute. Qed.

(** C2 (amended): on two arrays [orderedList] returns what the reference
    algorithm returns for [list1] with its empty-string tokens removed and
    [list2], which is what it returns for [list1] itself when [list1]
    holds no empty string; and [orderedList(["a","b","a"], ["b","_","a"])]
    is [["b","a","a"]]. *)
Theorem orderedList_refines_reference (l1 l2 : list string) :
  orderedList (Arr l1) (Arr l2)
  = Normal (Arr (reference_reorder (List.filter truthy l1) l2))
  ∧ ("" ∉ l1 → orderedList (Arr l1) (Arr l2) = Normal (Arr (reference_reorder l1 l2)))
  ∧ orderedList (Arr ["a"; "b"; "a"]) (Arr ["b"; "_"; "a"])
    = Normal (Arr ["b"; "a"; "a"]).
Proof.
  split_and!; [apply orderedList_reference | | by vm_compute].
  intros Hl1. by rewrite orderedList_reference, filter_truthy_id.
Qed.

(** C3, as the specification states it, fails when [list1] holds an empty
    string. *)
Lemma orderedList_nil_counterexample :
  orderedList (Arr ["a"; ""; "b"]) (Arr []) ≠ Normal (Arr ["a"; ""; "b"]).
Proof. by vm_compute. Qed.

(** C3 (amended): with an empty [list2], [orderedList] returns the
    non-empty tokens of [list1] in their original order, hence [list1]
    itself when it holds no empty string. *)
Theorem orderedList_nil (l1 : list string) :
  orderedList (Arr l1) (Arr []) = Normal (Arr (List.filter truthy l1))
  ∧ ("" ∉ l1 → orderedList (Arr l1) (Arr []) = Normal (Arr l1)).
Proof.
  split.
  - by rewrite orderedList_reference, reference_reorder_nil.
  - intros Hl1. by rewrite orderedList_reference, reference_reorder_nil, filter_truthy_id.
Qed.

(** C4: when [list1] is not an array the result is the empty array; when
    [list1] is an array and [list2] is not, the result is [list1]. *)
Theorem orderedList_malformed :
  (∀ (v : non_array) (list2 : dyn string), orderedList (NotArr v) list2 = Normal (Arr []))
  ∧ (∀ (l1 : list string) (v : non_array),
       orderedList (Arr l1) (NotArr v) = Normal (Arr l1))
  ∧ orderedList (NotArr (NPrimitive (PString "not-an-array"))) (Arr ["x"]) = Normal (Arr [])
  ∧ orderedList (Arr ["a"; "b"]) (NotArr (NPrimitive (PString "not-an-array"))) = Normal (Arr ["a"; "b"]).
Proof. done. Qed.

(** C9: on two arrays the output of [orderedList] holds no empty string;
    the empty strings of [list1] are dropped before counting and those of
    [list2] match nothing, so the result is that of the two lists without
    their empty strings; for instance [orderedList(["a",""], ["","a"])] is
    [["a"]], which omits an element of [list1]. *)
Theorem orderedList_drops_falsy (l1 l2 : list string) :
  (∃ out, orderedList (Arr l1) (Arr l2) = Normal (Arr out) ∧ "" ∉ out)
  ∧ orderedList (Arr l1) (Arr l2)
    = orderedList (Arr (List.filter truthy l1)) (Arr (List.filter truthy l2))
  ∧ orderedList (Arr ["a"; ""]) (Arr [""; "a"]) = Normal (Arr ["a"]).
Proof.
  split; [|split; [|by vm_compute]].
  - eexists. split; [apply orderedList_reference|].
    rewrite (reference_reorder_perm _ l2). apply filter_truthy_no_empty.
  - rewrite !orderedList_reference. do 2 f_equal.
    assert (Hidem : List.filter truthy (List.filter truthy l1) = List.filter truthy l1).
    { induction l1 as [|x l1 IH]; simpl; [done|].
      destruct (truthy x) eqn:E; simpl; [|done]. by rewrite E, IH. }
    rewrite Hidem. unfold reference_reorder.
    rewrite walk_listed_skips_uncounted; [done|]. simpl.
    rewrite multiplicity_list_to_set_disj. apply count_occ_not_In.
    rewrite <- list_elem_of_In. apply filter_truthy_no_empty.
Qed.

(** ** Proofs about [deduplicateOptions] *)

Section dedup_proofs.
Implicit Types (options : list entry) (e : entry).

Lemma for_each_app {A S} (body : S → A → completion S) (l1 l2 : list A) (s : S) :
  for_each body (l1 ++ l2) s = (s' ← for_each body l1 s; for_each body l2 s').
Proof.
  revert s. induction l1 as [|x l1 IH]; intros s; simpl; [done|].
  destruct (body s x) as [s'|err]; simpl; [apply IH | done].
Qed.

Lemma values_of_app options1 options2 :
  values_of (options1 ++ options2) = values_of options1 ++ values_of options2.
Proof. apply omap_app. Qed.

Lemma kept_app_l options e i :
  i < length options → kept (options ++ [e]) i = kept options i.
Proof.
  intros Hi. unfold kept.
  rewrite lookup_app_l by done. by rewrite take_app_le by lia.
Qed.

Lemma kept_last options e :
  kept (options ++ [e]) (length options)
  = match e with
    | EOption o => if decide (value o ∈ values_of options) then None else Some e
    | _ => None
    end.
Proof.
  unfold kept. rewrite list_lookup_middle by done.
  rewrite take_app_length. by destruct e.
Qed.

Lemma first_seen_snoc options e :
  first_seen (options ++ [e])
  = first_seen options ++ option_list (kept (options ++ [e]) (length options)).
Proof.
  unfold first_seen. rewrite length_app; simpl.
  rewrite Nat.add_1_r, seq_S, omap_app; simpl. f_equal.
  apply list_omap_ext, Forall2_same_length_lookup_2; [done|].
  intros i x y Hx Hy. rewrite Hx in Hy; injection Hy as <-.
  apply lookup_seq in Hx as [-> Hlt]. by apply kept_app_l.
Qed.

(** The state of the loop after the truthy entries of [options]: the set
    holds the values met, the array the entries kept. *)
Lemma dedup_loop options :
  for_each dedup_step (List.filter truthy_entry options) (∅, [])
  = Normal (list_to_set (values_of options), first_seen options).
Proof.
  induction options as [|e options IH] using rev_ind; [done|].
  rewrite List.filter_app, for_each_app, IH; simpl.
  rewrite first_seen_snoc, kept_last, values_of_app.
  destruct e as [| |o]; simpl; rewrite ?app_nil_r; try done.
  rewrite list_to_set_app_L; simpl.
  rewrite (right_id_L ∅ (∪)), (comm_L (∪) _ {[value o]}).
  destruct (decide (value o ∈ values_of options)) as [Hin|Hnin].
  - rewrite decide_True by (by apply elem_of_list_to_set).
    simpl. rewrite app_nil_r. do 2 f_equal. set_solver.
  - rewrite decide_False by (by rewrite elem_of_list_to_set). done.
Qed.

Lemma first_seen_sublist options : first_seen options `sublist_of` options.
Proof.
  induction options as [|e options IH] using rev_ind; [done|].
  rewrite first_seen_snoc, kept_last.
  destruct e as [| |o]; simpl; rewrite ?app_nil_r; try by apply sublist_inserts_r.
  case_decide; simpl; rewrite ?app_nil_r; [by apply sublist_inserts_r|].
  by apply sublist_app.
Qed.

Lemma first_seen_values options v :
  v ∈ values_of (first_seen options) ↔ v ∈ values_of options.
Proof.
  induction options as [|e options IH] using rev_ind; [done|].
  rewrite first_seen_snoc, kept_last, !values_of_app, !elem_of_app, IH.
  destruct e as [| |o]; simpl; try set_solver.
  case_decide; simpl; set_solver.
Qed.

Lemma first_seen_NoDup options : NoDup (values_of (first_seen options)).
Proof.
  induction options as [|e options IH] using rev_ind; [constructor|].
  rewrite first_seen_snoc, kept_last.
  destruct e as [| |o]; simpl; rewrite ?app_nil_r; try done.
  case_decide as Hin; simpl; rewrite ?app_nil_r; [done|].
  rewrite values_of_app. apply NoDup_app. split; [done|]. split.
  - intros v Hv. apply (proj1 (first_seen_values _ _)) in Hv. simpl.
    intros Hv'. inversion Hv' as [|? ? ? Hnil]; subst; [done | inversion Hnil].
  - simpl. apply NoDup_singleton.
Qed.

Lemma first_seen_truthy options :
  Forall (λ e, truthy_entry e = true) (first_seen options).
Proof.
  induction options as [|e options IH] using rev_ind; [constructor|].
  rewrite first_seen_snoc, kept_last. apply Forall_app. split; [done|].
  destruct e as [| |o]; simpl; try constructor.
  case_decide; simpl; by repeat constructor.
Qed.
End dedup_proofs.

(** C6: on an array, [deduplicateOptions] returns the entries kept by the
    contract (in input order, [null] and [undefined] skipped, an option
    kept only when no earlier option carries its value): a sublist of the
    input, made of options, with pairwise distinct values that cover every
    value of the input.  In particular
    [deduplicateOptions([{a,A}, null, {a,A2}])] is [[{a,A}]]. *)
Theorem deduplicateOptions_first_seen (options : list entry) :
  deduplicateOptions (Arr options) = Normal (Arr (first_seen options))
  ∧ first_seen options `sublist_of` options
  ∧ Forall (λ e, truthy_entry e = true) (first_seen options)
  ∧ NoDup (values_of (first_seen options))
  ∧ (∀ v, v ∈ values_of (first_seen options) ↔ v ∈ values_of options)
  ∧ deduplicateOptions
      (Arr [EOption {| value := "a"; label := "A" |}; ENull;
            EOption {| value := "a"; label := "A2" |}])
    = Normal (Arr [EOption {| value := "a"; label := "A" |}]).
Proof.
  split_and!.
  - unfold deduplicateOptions; simpl. by rewrite dedup_loop.
  - apply first_seen_sublist.
  - apply first_seen_truthy.
  - apply first_seen_NoDup.
  - apply first_seen_values.
  - by vm_compute.
Qed.

(** ** Proofs about objects used as maps *)

Section object_proofs.
Context {V : Type}.
Implicit Types (o target source : js_object V) (key k : string) (v : V).

Lemma obj_insert_index_perm n key v o : obj_insert_index n key v o ≡ₚ (key, v) :: o.
Proof.
  induction o as [|[k' v'] o IH]; simpl; [done|].
  destruct (array_index k') as [n'|]; [|done].
  destruct (n' <? n)%N; [|done].
  rewrite IH. apply Permutation_swap.
Qed.

Lemma obj_set_new key v o : key ∉ o.*1 → obj_set key v o ≡ₚ (key, v) :: o.
Proof.
  intros Hnew. unfold obj_set. rewrite decide_False by done.
  destruct (array_index key).
  - apply obj_insert_index_perm.
  - by rewrite Permutation_app_comm.
Qed.

Lemma obj_replace_keys key v o :
  ((λ kv : string * V, if decide (kv.1 = key) then (key, v) else kv) <$> o).*1 = o.*1.
Proof.
  rewrite <- list_fmap_compose. apply list_fmap_ext.
  intros i [k' v'] _; simpl. by case_decide.
Qed.

Lemma obj_replace_map key v o :
  obj_map ((λ kv : string * V, if decide (kv.1 = key) then (key, v) else kv) <$> o)
  = alter (λ _, v) key (obj_map o).
Proof.
  unfold obj_map. induction o as [|[k' v'] o IH].
  - simpl. symmetry. apply alter_empty.
  - rewrite fmap_cons. cbn [fst]. case_decide as Hk; simpl in *; rewrite IH.
    + subst k'. apply map_eq. intros k.
      destruct (decide (key = k)) as [<-|Hne].
      * by rewrite lookup_insert_eq, lookup_alter_eq, lookup_insert_eq.
      * by rewrite lookup_insert_ne, !lookup_alter_ne, lookup_insert_ne.
    + by rewrite alter_insert_ne.
Qed.

Lemma obj_set_keys key v o :
  NoDup o.*1 → NoDup (obj_set key v o).*1.
Proof.
  intros Hnd. destruct (decide (key ∈ o.*1)) as [Hin|Hnew].
  - unfold obj_set. rewrite decide_True by done. by rewrite obj_replace_keys.
  - rewrite (obj_set_new key v o Hnew). simpl. by constructor.
Qed.

Lemma obj_set_map key v o :
  NoDup o.*1 → obj_map (obj_set key v o) = <[key := v]> (obj_map o).
Proof.
  intros Hnd. destruct (decide (key ∈ o.*1)) as [Hin|Hnew].
  - unfold obj_set. rewrite decide_True by done. rewrite obj_replace_map.
    apply map_eq. intros k. rewrite lookup_alter, lookup_insert.
    destruct (decide (key = k)) as [<-|]; [|done].
    destruct (obj_map o !! key) eqn:E; [done|].
    by apply not_elem_of_list_to_map in E.
  - unfold obj_map. change (<[key:=v]> (list_to_map o)) with (list_to_map ((key, v) :: o) : gmap string V).
    symmetry. apply list_to_map_proper.
    + simpl. by constructor.
    + by rewrite obj_set_new.
Qed.

Lemma obj_spread_spec target source :
  NoDup target.*1 →
  NoDup (obj_spread target source).*1
  ∧ obj_map (obj_spread target source) = obj_map (reverse source) ∪ obj_map target.
Proof.
  revert target. induction source as [|[k v] source IH]; intros target Hnd; simpl.
  - split; [done|]. unfold obj_map; simpl. by rewrite (left_id_L ∅ (∪)).
  - destruct (IH (obj_set k v target)) as [Hnd' Hmap]; [by apply obj_set_keys|].
    split; [done|]. unfold obj_spread in *; simpl. rewrite Hmap.
    rewrite obj_set_map by done. unfold obj_map.
    rewrite reverse_cons, list_to_map_app; simpl.
    rewrite <- (assoc_L (∪)). f_equal.
    by rewrite insert_empty, <- insert_union_singleton_l.
Qed.

(** Copying an object into a fresh one gives the same map. *)
Lemma obj_copy_spec o :
  NoDup o.*1 →
  NoDup (obj_spread [] o).*1 ∧ obj_map (obj_spread [] o) = obj_map o.
Proof.
  intros Hnd. destruct (obj_spread_spec [] o) as [Hnd' Hmap]; [constructor|].
  split; [done|]. rewrite Hmap. unfold obj_map; simpl.
  rewrite (right_id_L ∅ (∪)). symmetry. apply list_to_map_proper; [done|].
  by rewrite reverse_Permutation.
Qed.
End object_proofs.

(** ** Proofs about [fieldOptionsUnion] *)

Section union_proofs.
Implicit Types (options : list FieldOption) (o : FieldOption) (v : string).

Lemma latest_snoc v options o :
  latest v (options ++ [o]) = if decide (value o = v) then Some o else latest v options.
Proof.
  unfold latest. rewrite List.filter_app; simpl.
  case_decide as Hv.
  - rewrite bool_decide_eq_true_2 by done. apply last_snoc.
  - rewrite bool_decide_eq_false_2 by done. by rewrite app_nil_r.
Qed.

Lemma latest_app v options1 options2 :
  latest v (options1 ++ options2)
  = match latest v options2 with
    | Some o => Some o
    | None => latest v options1
    end.
Proof.
  induction options2 as [|o options2 IH] using rev_ind.
  - by rewrite app_nil_r.
  - rewrite app_assoc, !latest_snoc. by case_decide.
Qed.

Lemma latest_Some v options o :
  latest v options = Some o → value o = v ∧ o ∈ options.
Proof.
  induction options as [|o' options IH] using rev_ind; [done|].
  rewrite latest_snoc, elem_of_app. case_decide as Hv.
  - intros [= ->]. split; [done|]. right. by apply list_elem_of_singleton.
  - intros Hl. destruct (IH Hl) as [? ?]. by split; [|left].
Qed.

Lemma latest_None v options :
  latest v options = None ↔ v ∉ value <$> options.
Proof.
  induction options as [|o' options IH] using rev_ind; [by split; [inversion 2|]|].
  rewrite latest_snoc, fmap_app, elem_of_app; simpl. case_decide as Hv.
  - split; [done|]. intros Hn. destruct Hn. right. subst v. by left.
  - rewrite IH. split.
    + intros Hn [Hin|Hin]; [done|].
      apply list_elem_of_singleton in Hin. congruence.
    + intros Hn Hin. apply Hn. by left.
Qed.

(** The object built by [reduce] maps each value to the last option that
    carries it. *)
Lemma reduce_spec options :
  NoDup (foldl union_step [] options).*1
  ∧ ∀ v, obj_map (foldl union_step [] options) !! v = latest v options.
Proof.
  induction options as [|o options [IHnd IHmap]] using rev_ind.
  - split; [constructor|done].
  - rewrite foldl_snoc. unfold union_step at 1 3.
    destruct (obj_copy_spec (foldl union_step [] options) IHnd) as [Hnd Hmap].
    split; [by apply obj_set_keys|]. intros v.
    rewrite obj_set_map, Hmap, lookup_insert, latest_snoc by done.
    case_decide; [done | apply IHmap].
Qed.

(** The merged object: every value of either list, mapped to the last
    option of [options2] that carries it, else the last of [options1]. *)
Lemma merged_spec options1 options2 :
  let merged := obj_spread (obj_spread [] (foldl union_step [] options1))
                           (foldl union_step [] options2) in
  NoDup merged.*1
  ∧ ∀ v, obj_map merged !! v = latest v (options1 ++ options2).
Proof.
  intros merged.
  destruct (reduce_spec options1) as [Hnd1 Hmap1].
  destruct (reduce_spec options2) as [Hnd2 Hmap2].
  destruct (obj_copy_spec _ Hnd1) as [Hnd1' Hmap1'].
  destruct (obj_spread_spec (obj_spread [] (foldl union_step [] options1))
              (foldl union_step [] options2) Hnd1') as [Hnd Hmap].
  split; [done|]. intros v. unfold merged. rewrite Hmap, Hmap1', latest_app.
  assert (Hrev : obj_map (reverse (foldl union_step [] options2))
                 = obj_map (foldl union_step [] options2)).
  { unfold obj_map. symmetry. apply list_to_map_proper; [done|].
    by rewrite reverse_Permutation. }
  rewrite Hrev, lookup_union, Hmap1, Hmap2.
  by destruct (latest v options2), (latest v options1).
Qed.

Lemma merged_keys_are_values (merged : js_object FieldOption) options :
  NoDup merged.*1 →
  (∀ v, obj_map merged !! v = latest v options) →
  value <$> obj_values merged = merged.*1.
Proof.
  intros Hnd Hmap. unfold obj_values. rewrite <- list_fmap_compose.
  apply list_fmap_ext. intros i [k o] Hi; simpl.
  assert (Hin : (k, o) ∈ merged) by (by eapply list_elem_of_lookup_2).
  apply (elem_of_list_to_map (M := gmap string)) in Hin; [|done].
  change (obj_map merged !! k = Some o) in Hin. rewrite Hmap in Hin.
  by apply latest_Some in Hin as [? _].
Qed.

Lemma merged_values (merged : js_object FieldOption) options o :
  NoDup merged.*1 →
  (∀ v, obj_map merged !! v = latest v options) →
  o ∈ obj_values merged ↔ latest (value o) options = Some o.
Proof.
  intros Hnd Hmap. unfold obj_values. rewrite list_elem_of_fmap. split.
  - intros ([k o'] & -> & Hin); simpl.
    apply (elem_of_list_to_map (M := gmap string)) in Hin; [|done].
    change (obj_map merged !! k = Some o') in Hin. rewrite Hmap in Hin.
    by destruct (latest_Some _ _ _ Hin) as [-> _].
  - intros Hl. exists (value o, o). split; [done|].
    apply (elem_of_list_to_map (M := gmap string)); [done|].
    change (obj_map merged !! value o = Some o). by rewrite Hmap.
Qed.
End union_proofs.

(** C5: the values of [fieldOptionsUnion(options1, options2)] are pairwise
    distinct and are exactly the values occurring in either list; the
    returned entry for a value is the last option of [options2] that
    carries it, else the last of [options1], so an entry whose value also
    occurs in [options2] comes from [options2].  In particular the union
    of [[{yes,Yes}]] and [[{yes,Y}, {no,No}]] is [[{yes,Y}, {no,No}]]. *)
Theorem fieldOptionsUnion_by_value (options1 options2 : list FieldOption) :
  let out := fieldOptionsUnion options1 options2 in
  NoDup (value <$> out)
  ∧ (∀ v, v ∈ value <$> out ↔ v ∈ value <$> options1 ∨ v ∈ value <$> options2)
  ∧ (∀ o, o ∈ out ↔ latest (value o) (options1 ++ options2) = Some o)
  ∧ (∀ o, o ∈ out → value o ∈ value <$> options2 → o ∈ options2)
  ∧ (∀ o, o ∈ out → o ∈ options1 ∨ o ∈ options2)
  ∧ fieldOptionsUnion [{| value := "yes"; label := "Yes" |}]
      [{| value := "yes"; label := "Y" |}; {| value := "no"; label := "No" |}]
    = [{| value := "yes"; label := "Y" |}; {| value := "no"; label := "No" |}].
Proof.
  intros out. destruct (merged_spec options1 options2) as [Hnd Hmap].
  assert (Hout : ∀ o, o ∈ out ↔ latest (value o) (options1 ++ options2) = Some o).
  { intros o. by apply merged_values. }
  split_and!.
  - unfold out, fieldOptionsUnion. by erewrite merged_keys_are_values.
  - intros v. rewrite <- elem_of_app, <- fmap_app. split.
    + intros (o & -> & Hin)%list_elem_of_fmap. apply Hout in Hin.
      destruct (decide (value o ∈ value <$> options1 ++ options2)) as [|Hn]; [done|].
      apply latest_None in Hn. congruence.
    + intros Hin. destruct (latest v (options1 ++ options2)) as [o|] eqn:E.
      * destruct (latest_Some _ _ _ E) as [<- _].
        apply list_elem_of_fmap. exists o. split; [done|]. by apply Hout.
      * by apply latest_None in E.
  - done.
  - intros o Hin Hv. apply Hout in Hin. rewrite latest_app in Hin.
    destruct (latest (value o) options2) as [o'|] eqn:E.
    + injection Hin as ->. by apply latest_Some in E as [_ ?].
    + by apply latest_None in E.
  - intros o Hin. apply Hout in Hin. apply latest_Some in Hin as [_ Hin].
    by apply elem_of_app in Hin.
  - by vm_compute.
Qed.

(** ** Which calls throw *)

(** C7, as the specification states it, fails: [deduplicateOptions] calls
    [options.filter] unguarded, which throws on [null]. *)
Lemma deduplicateOptions_null_counterexample :
  deduplicateOptions (NotArr (NPrimitive PNull)) = Throw TypeError
  ∧ ¬ ∃ out, deduplicateOptions (NotArr (NPrimitive PNull)) = Normal out.
Proof. split; [done|]. by intros [out Hout]. Qed.

(** C7 (amended): [orderedList] throws for no input, malformed ones
    included, and returns an array; [deduplicateOptions] throws for no
    array input and returns an array. *)
Theorem orderedList_deduplicateOptions_no_throw :
  (∀ list1 list2 : dyn string, ∃ out, orderedList list1 list2 = Normal (Arr out))
  ∧ (∀ options : list entry, ∃ out, deduplicateOptions (Arr options) = Normal (Arr out)).
Proof.
  split.
  - intros [l1|v1] [l2|v2]; by eexists.
  - intros options. eexists. unfold deduplicateOptions; simpl.
    by rewrite dedup_loop.
Qed.

(** ** Properties of [safeJSONParse] *)

(** C10: with a string input and a string default, [safeJSONParse]
    returns the input itself and does not call [JSON.parse]; [JSON.parse]
    is called exactly when the input is a string and the default is not,
    and then on the input; and whatever [JSON.parse] does, the call
    completes normally. *)
Theorem safeJSONParse_string_default :
  (∀ text d : string,
     safeJSONParse (JPrimitive (PString text)) (JPrimitive (PString d))
     = Done (Normal (JPrimitive (PString text))))
  ∧ (∀ input defaultValue : js_value,
       calls_parse (safeJSONParse input defaultValue)
       = match input with
         | JPrimitive (PString _) => negb (bool_decide (typeof defaultValue = TString))
         | _ => false
         end)
  ∧ (∀ (text : string) (defaultValue : js_value),
       typeof defaultValue ≠ TString →
       ∃ k, safeJSONParse (JPrimitive (PString text)) defaultValue = CallParse text k)
  ∧ (∀ (JSON_parse : string → completion js_value) (input defaultValue : js_value),
       ∃ v, run JSON_parse (safeJSONParse input defaultValue) = Normal v).
Proof.
  split_and!.
  - done.
  - intros input d. unfold safeJSONParse.
    destruct input as [[]| | |]; simpl; try done;
      try (by case_bool_decide; simpl; repeat case_match).
    case_bool_decide as Ht; simpl.
    + by rewrite bool_decide_eq_true_2.
    + by rewrite bool_decide_eq_false_2.
  - intros text d Hd. unfold safeJSONParse; simpl.
    rewrite bool_decide_eq_false_2 by done. by eexists.
  - intros parse input d. unfold safeJSONParse.
    destruct input as [[]| | |]; simpl; try (by eexists);
      try (by case_bool_decide; simpl; repeat case_match; eexists).
    case_bool_decide; simpl; [by eexists|].
    destruct (parse s) as [parsed|err]; simpl; by eexists.
Qed.

(** ** What a call writes to *)

Module StoreFacts.
Import Store.

Section keeps.
Context (h0 : heap).

Lemma keeps_ret {A} (a : A) (Q : A → Prop) : Q a → keeps h0 (mret a) Q.
Proof. intros HQ h Hh. split; [done|]. by intros a' [= <-]. Qed.

Lemma keeps_throw {A} (e : js_error) (Q : A → Prop) : keeps h0 (throw e) Q.
Proof. intros h Hh. by split. Qed.

Lemma keeps_bind {A B} (m : M A) (k : A → M B) (Q : A → Prop) (R : B → Prop) :
  keeps h0 m Q → (∀ a, Q a → keeps h0 (k a) R) → keeps h0 (m ≫= k) R.
Proof.
  intros Hm Hk h Hh. destruct (Hm h Hh) as [Hsub HQ].
  unfold mbind, M_bind. destruct (m h) as [[a|] h']; simpl in *; [|done].
  by apply Hk; [apply HQ|].
Qed.

Lemma keeps_weaken {A} (m : M A) (Q R : A → Prop) :
  keeps h0 m Q → (∀ a, Q a → R a) → keeps h0 m R.
Proof.
  intros Hm HQR h Hh. destruct (Hm h Hh) as [Hsub HQ]. split; [done|].
  intros a Ha. by apply HQR, HQ.
Qed.

(** A new cell lies outside [h0]. *)
Lemma keeps_alloc (c : cell) : keeps h0 (alloc c) (λ l, h0 !! l = None).
Proof.
  intros h Hh. unfold alloc; simpl.
  assert (Hfresh : h !! fresh (dom h) = None).
  { apply not_elem_of_dom, is_fresh. }
  assert (Hout : h0 !! fresh (dom h) = None).
  { destruct (h0 !! fresh (dom h)) as [c'|] eqn:E; [|done].
    apply (lookup_weaken _ _ _ _ E) in Hh. congruence. }
  split; [by apply insert_subseteq_r|]. by intros l [= <-].
Qed.

Lemma keeps_read (l : loc) : keeps h0 (read l) (λ _, True).
Proof. intros h Hh. by split. Qed.

(** Overwriting a cell outside [h0] leaves [h0] as it is. *)
Lemma keeps_write (l : loc) (c : cell) :
  h0 !! l = None → keeps h0 (write l c) (λ _, True).
Proof. intros Hl h Hh. split; [by apply insert_subseteq_r|done]. Qed.

Lemma keeps_for_each {A S} (body : S → A → M S) (items : list A) (s : S) :
  (∀ s a, keeps h0 (body s a) (λ _, True)) →
  keeps h0 (for_each body items s) (λ _, True).
Proof.
  intros Hbody. revert s. induction items as [|item items IH]; intros s; simpl.
  - by apply keeps_ret.
  - eapply keeps_bind; [apply Hbody|]. intros s' _. apply IH.
Qed.

(** Sequencing when nothing is asked of the value passed on. *)
Lemma keeps_seq {A B} (m : M A) (k : A → M B) (R : B → Prop) :
  keeps h0 m (λ _, True) → (∀ a, keeps h0 (k a) R) → keeps h0 (m ≫= k) R.
Proof. intros Hm Hk. eapply keeps_bind; [apply Hm|]. intros a _. apply Hk. Qed.

(** Any property of the returned value may be dropped. *)
Lemma keeps_True {A} (m : M A) (Q : A → Prop) :
  keeps h0 m Q → keeps h0 m (λ _, True).
Proof. intros Hm. by eapply keeps_weaken. Qed.

Ltac keeps_reads :=
  repeat first
    [ apply keeps_ret; done
    | apply keeps_throw
    | apply keeps_read
    | apply keeps_seq; [|intros ?]
    | case_match ].

Lemma keeps_to_property_key c v : keeps h0 (to_property_key c v) (λ _, True).
Proof.
  unfold to_property_key. destruct v as [[]|l]; try (by apply keeps_ret).
  intros h Hh. by destruct (object_to_string c h l).
Qed.

Lemma keeps_isArray v : keeps h0 (isArray v) (λ _, True).
Proof. unfold isArray. keeps_reads. Qed.

Lemma keeps_array_items v : keeps h0 (array_items v) (λ _, True).
Proof. unfold array_items. keeps_reads. Qed.

Lemma keeps_get_value v : keeps h0 (get_value v) (λ _, True).
Proof. unfold get_value. keeps_reads. Qed.

Lemma keeps_obj_props v : keeps h0 (obj_props v) (λ _, True).
Proof. unfold obj_props. keeps_reads. Qed.

Lemma keeps_map_has m key : keeps h0 (map_has m key) (λ _, True).
Proof. unfold map_has. keeps_reads. Qed.

Lemma keeps_map_get m key : keeps h0 (map_get m key) (λ _, True).
Proof. unfold map_get. keeps_reads. Qed.

Lemma keeps_set_has s v : keeps h0 (set_has s v) (λ _, True).
Proof. unfold set_has. keeps_reads. Qed.

Ltac keeps_writes Hl :=
  repeat first
    [ apply keeps_ret; done
    | apply keeps_throw
    | apply keeps_read
    | apply keeps_write; exact Hl
    | apply keeps_seq; [|intros ?]
    | case_match ].

Lemma keeps_push arr v : h0 !! arr = None → keeps h0 (push arr v) (λ _, True).
Proof. intros Hl. unfold push. keeps_writes Hl. Qed.

Lemma keeps_map_set m key n : h0 !! m = None → keeps h0 (map_set m key n) (λ _, True).
Proof. intros Hl. unfold map_set. keeps_writes Hl. Qed.

Lemma keeps_map_delete m key : h0 !! m = None → keeps h0 (map_delete m key) (λ _, True).
Proof. intros Hl. unfold map_delete. keeps_writes Hl. Qed.

Lemma keeps_set_add s v : h0 !! s = None → keeps h0 (set_add s v) (λ _, True).
Proof. intros Hl. unfold set_add. keeps_writes Hl. Qed.

Create HintDb keeps.

#[local] Hint Resolve keeps_to_property_key keeps_isArray keeps_array_items keeps_get_value
  keeps_obj_props keeps_map_has keeps_map_get keeps_set_has keeps_push keeps_map_set
  keeps_map_delete keeps_set_add keeps_throw : keeps.

Ltac keeps_auto :=
  repeat first
    [ apply keeps_ret; done
    | solve [eauto with keeps]
    | apply keeps_seq; [solve [eauto with keeps] | intros ?]
    | apply keeps_seq;
        [apply keeps_for_each; intros ? ?; solve [eauto with keeps] | intros ?]
    | eapply keeps_bind; [apply keeps_alloc | intros ? ?; cbv beta in * ]
    | apply keeps_for_each; intros ? ?
    | case_match ].

Lemma keeps_count_body countMap u item :
  h0 !! countMap = None → keeps h0 (count_body countMap u item) (λ _, True).
Proof. intros Hm. unfold count_body. keeps_auto. Qed.

Lemma keeps_take_body result countMap u item :
  h0 !! result = None → h0 !! countMap = None →
  keeps h0 (take_body result countMap u item) (λ _, True).
Proof. intros Hr Hm. unfold take_body. keeps_auto. Qed.

Lemma keeps_listed_body result countMap u item :
  h0 !! result = None → h0 !! countMap = None →
  keeps h0 (listed_body result countMap u item) (λ _, True).
Proof.
  intros Hr Hm. unfold listed_body. case_match; [by apply keeps_ret|].
  by apply keeps_take_body.
Qed.

Lemma keeps_dedup_body seenValues deduplicatedOptions u option :
  h0 !! seenValues = None → h0 !! deduplicatedOptions = None →
  keeps h0 (dedup_body seenValues deduplicatedOptions u option) (λ _, True).
Proof. intros Hs Hd. unfold dedup_body. keeps_auto. Qed.

Lemma keeps_union_body c acc option : keeps h0 (union_body c acc option) (λ _, True).
Proof. unfold union_body. keeps_auto. Qed.

Lemma keeps_reduce_options c options : keeps h0 (reduce_options c options) (λ _, True).
Proof. unfold reduce_options. keeps_auto. Qed.

#[local] Hint Resolve keeps_count_body keeps_take_body keeps_listed_body keeps_dedup_body
  keeps_union_body keeps_reduce_options : keeps.

Lemma keeps_orderedList list1 list2 : keeps h0 (orderedList list1 list2) (λ _, True).
Proof. unfold orderedList. keeps_auto. Qed.

Lemma keeps_deduplicateOptions options :
  keeps h0 (deduplicateOptions options) (λ _, True).
Proof. unfold deduplicateOptions. keeps_auto. Qed.

Lemma keeps_fieldOptionsUnion c options1 options2 :
  keeps h0 (fieldOptionsUnion c options1 options2) (λ _, True).
Proof. unfold fieldOptionsUnion. keeps_auto. Qed.
End keeps.

End StoreFacts.

(** ** The store layer computes what the functional layer computes *)

Module Refinement.

Section runs.
Implicit Types (h : gmap Store.loc Store.cell) (l r cm : Store.loc).

Lemma bind_returns {A B} (m : Store.M A) (k : A → Store.M B) h a h' :
  m h = (Store.Returns a, h') → (m ≫= k) h = k a h'.
Proof. intros Hm. unfold mbind, Store.M_bind. by rewrite Hm. Qed.

Lemma fresh_lookup h : h !! fresh (dom h) = None.
Proof. apply not_elem_of_dom, is_fresh. Qed.

Lemma fresh_ne h l c : h !! l = Some c → l ≠ fresh (dom h).
Proof. intros Hl ->. by rewrite fresh_lookup in Hl. Qed.

Lemma alloc_run h c :
  Store.alloc c h = (Store.Returns (fresh (dom h)), <[fresh (dom h) := c]> h).
Proof. done. Qed.

Lemma isArray_array h l items :
  h !! l = Some (Store.CArray items) → Store.isArray (Store.VRef l) h = (Store.Returns true, h).
Proof. intros Hl. unfold Store.isArray, mbind, Store.M_bind, Store.read. by rewrite Hl. Qed.

Lemma array_items_array h l items :
  h !! l = Some (Store.CArray items) →
  Store.array_items (Store.VRef l) h = (Store.Returns items, h).
Proof. intros Hl. unfold Store.array_items, mbind, Store.M_bind, Store.read. by rewrite Hl. Qed.

Lemma push_array h l items v :
  h !! l = Some (Store.CArray items) →
  Store.push l v h = (Store.Returns (), <[l := Store.CArray (items ++ [v])]> h).
Proof. intros Hl. unfold Store.push, mbind, Store.M_bind, Store.read. by rewrite Hl. Qed.

#[local] Instance KString_inj : Inj (=) (=) Store.KString.
Proof. by intros s1 s2 [= ->]. Qed.

Lemma string_keys_empty : string_keys ∅ = ∅.
Proof. apply kmap_empty. Qed.

Lemma string_keys_lookup (m : gmap string nat) s :
  string_keys m !! Store.key_of (str s) = m !! s.
Proof. apply (lookup_kmap Store.KString). Qed.

Lemma map_has_str h cm m s :
  h !! cm = Some (Store.CMap (string_keys m)) →
  Store.map_has cm (str s) h = (Store.Returns (bool_decide (is_Some (m !! s))), h).
Proof.
  intros Hl. unfold Store.map_has, mbind, Store.M_bind, Store.read.
  by rewrite Hl, string_keys_lookup.
Qed.

Lemma map_get_map h cm m s :
  h !! cm = Some (Store.CMap (string_keys m)) →
  Store.map_get cm (str s) h = (Store.Returns (m !! s), h).
Proof.
  intros Hl. unfold Store.map_get, mbind, Store.M_bind, Store.read.
  by rewrite Hl, string_keys_lookup.
Qed.

Lemma map_set_map h cm m s n :
  h !! cm = Some (Store.CMap (string_keys m)) →
  Store.map_set cm (str s) n h
  = (Store.Returns (), <[cm := Store.CMap (string_keys (<[s := n]> m))]> h).
Proof.
  intros Hl. unfold Store.map_set, mbind, Store.M_bind, Store.read. rewrite Hl.
  unfold string_keys. by rewrite (kmap_insert Store.KString).
Qed.

Lemma map_delete_map h cm m s :
  h !! cm = Some (Store.CMap (string_keys m)) →
  Store.map_delete cm (str s) h
  = (Store.Returns (), <[cm := Store.CMap (string_keys (delete s m))]> h).
Proof.
  intros Hl. unfold Store.map_delete, mbind, Store.M_bind, Store.read. rewrite Hl.
  unfold string_keys. by rewrite (kmap_delete Store.KString).
Qed.

Lemma filter_truthy_str (items : list string) :
  List.filter Store.truthy (str <$> items) = str <$> List.filter truthy items.
Proof.
  induction items as [|x items IH]; [done|]. rewrite fmap_cons. cbn [List.filter].
  change (Store.truthy (str x)) with (truthy x).
  destruct (truthy x); [by rewrite fmap_cons, IH | done].
Qed.

(** The counting loop. *)
Lemma count_loop h cm m (items : list string) :
  h !! cm = Some (Store.CMap (string_keys m)) →
  Store.for_each (Store.count_body cm) (str <$> items) () h
  = (Store.Returns (), <[cm := Store.CMap (string_keys (foldl count_item m items))]> h).
Proof.
  revert h m. induction items as [|x items IH]; intros h m Hcm.
  - simpl. by rewrite insert_id.
  - rewrite fmap_cons. cbn [Store.for_each foldl].
    erewrite bind_returns; last first.
    { unfold Store.count_body.
      erewrite bind_returns by (by apply map_get_map).
      by apply map_set_map. }
    rewrite (IH _ (count_item m x)) by apply lookup_insert_eq.
    by rewrite insert_insert_eq.
Qed.

(** One turn of either emitting loop. *)
Lemma take_body_run h r cm res m (x : string) :
  r ≠ cm →
  h !! r = Some (Store.CArray (str <$> res)) →
  h !! cm = Some (Store.CMap (string_keys m)) →
  Store.take_body r cm () (str x) h
  = (Store.Returns (),
     <[r := Store.CArray (str <$> (take_one (res, m) x).1)]>
       (<[cm := Store.CMap (string_keys (take_one (res, m) x).2)]> h)).
Proof.
  intros Hne Hr Hcm. unfold Store.take_body, take_one.
  erewrite bind_returns by (by apply map_has_str).
  destruct (m !! x) as [count|] eqn:Hx.
  - rewrite bool_decide_eq_true_2 by done.
    erewrite bind_returns by (by apply push_array).
    erewrite bind_returns; last first.
    { apply map_get_map. by rewrite lookup_insert_ne. }
    rewrite Hx; simpl. rewrite fmap_app; simpl.
    case_decide.
    + erewrite map_set_map by (by rewrite lookup_insert_ne).
      by rewrite insert_insert_ne.
    + erewrite map_delete_map by (by rewrite lookup_insert_ne).
      by rewrite insert_insert_ne.
  - rewrite bool_decide_eq_false_2 by (by intros [? ?]).
    simpl. by rewrite (insert_id h cm), (insert_id h r).
Qed.

Lemma listed_body_run h r cm res m (x : string) :
  r ≠ cm →
  h !! r = Some (Store.CArray (str <$> res)) →
  h !! cm = Some (Store.CMap (string_keys m)) →
  Store.listed_body r cm () (str x) h
  = (Store.Returns (),
     <[r := Store.CArray (str <$> (place_listed (res, m) x).1)]>
       (<[cm := Store.CMap (string_keys (place_listed (res, m) x).2)]> h)).
Proof.
  intros Hne Hr Hcm. unfold Store.listed_body, place_listed; simpl.
  destruct (String.eqb x "_").
  - simpl. by rewrite (insert_id h cm), (insert_id h r).
  - by apply take_body_run.
Qed.

Lemma emit_loop (sbody : Store.loc → Store.loc → unit → Store.val → Store.M unit)
    (body : list string * gmap string nat → string → list string * gmap string nat)
    h r cm res m (items : list string) :
  (∀ h res m x,
     h !! r = Some (Store.CArray (str <$> res)) →
     h !! cm = Some (Store.CMap (string_keys m)) →
     sbody r cm () (str x) h
     = (Store.Returns (),
        <[r := Store.CArray (str <$> (body (res, m) x).1)]>
          (<[cm := Store.CMap (string_keys (body (res, m) x).2)]> h))) →
  r ≠ cm →
  h !! r = Some (Store.CArray (str <$> res)) →
  h !! cm = Some (Store.CMap (string_keys m)) →
  Store.for_each (sbody r cm) (str <$> items) () h
  = (Store.Returns (),
     <[r := Store.CArray (str <$> (foldl body (res, m) items).1)]>
       (<[cm := Store.CMap (string_keys (foldl body (res, m) items).2)]> h)).
Proof.
  intros Hbody Hne. revert h res m.
  induction items as [|x items IH]; intros h res m Hr Hcm.
  - simpl. by rewrite (insert_id h cm), (insert_id h r).
  - rewrite fmap_cons. cbn [Store.for_each foldl].
    erewrite bind_returns by (by apply Hbody).
    destruct (body (res, m) x) as [res' m'] eqn:E; simpl.
    rewrite (IH _ res' m').
    + rewrite (insert_insert_ne _ cm r) by done. by rewrite !insert_insert_eq.
    + apply lookup_insert_eq.
    + rewrite lookup_insert_ne by done. apply lookup_insert_eq.
Qed.

(** Two stored arrays of strings: the call returns a new array holding the
    tokens the functional [orderedList] returns. *)
Lemma orderedList_refines h l1 l2 (xs ys : list string) :
  h !! l1 = Some (Store.CArray (str <$> xs)) →
  h !! l2 = Some (Store.CArray (str <$> ys)) →
  ∃ r h' out,
    Store.orderedList (Store.VRef l1) (Store.VRef l2) h = (Store.Returns (Store.VRef r), h')
    ∧ orderedList (Arr xs) (Arr ys) = Normal (Arr out)
    ∧ h !! r = None
    ∧ h' !! r = Some (Store.CArray (str <$> out)).
Proof.
  intros H1 H2. unfold Store.orderedList.
  erewrite bind_returns by (by eapply isArray_array). cbn [negb andb].
  erewrite bind_returns by (by eapply isArray_array).
  erewrite bind_returns by (by eapply isArray_array). cbn [negb andb].
  erewrite bind_returns by apply alloc_run.
  assert (Hr := fresh_lookup h). set (r := fresh (dom h)) in *.
  set (h1 := <[r := Store.CArray []]> h).
  assert (H1' : h1 !! l1 = Some (Store.CArray (str <$> xs))).
  { unfold h1. rewrite lookup_insert_ne by congruence. done. }
  erewrite bind_returns by (by eapply array_items_array).
  erewrite bind_returns by apply alloc_run.
  assert (Hrm := fresh_lookup h1). set (rm := fresh (dom h1)) in *.
  apply lookup_insert_None in Hrm as [Hrm Hrrm].
  rewrite filter_truthy_str. set (rest := List.filter truthy xs).
  set (h2 := <[rm := Store.CArray (str <$> rest)]> h1).
  erewrite bind_returns by apply alloc_run.
  assert (Hcm := fresh_lookup h2). set (cm := fresh (dom h2)) in *.
  apply lookup_insert_None in Hcm as [Hcm Hrmcm].
  apply lookup_insert_None in Hcm as [Hcm Hrcm].
  rewrite <- string_keys_empty.
  set (h3 := <[cm := Store.CMap (string_keys ∅)]> h2).
  assert (Hrest : ∀ c, (<[cm := c]> h3) !! rm = Some (Store.CArray (str <$> rest))).
  { intros c. unfold h3, h2. rewrite !lookup_insert_ne by done. apply lookup_insert_eq. }
  erewrite bind_returns; last first.
  { eapply array_items_array. unfold h3, h2.
    rewrite lookup_insert_ne by done. apply lookup_insert_eq. }
  erewrite bind_returns by (apply count_loop; apply lookup_insert_eq).
  set (counts := foldl count_item ∅ rest).
  erewrite bind_returns; last first.
  { eapply array_items_array. unfold h3, h2, h1.
    rewrite !lookup_insert_ne by congruence. done. }
  erewrite bind_returns; last first.
  { apply (emit_loop Store.listed_body place_listed _ r cm [] counts).
    - intros. by apply listed_body_run.
    - done.
    - unfold h3, h2, h1. rewrite !lookup_insert_ne by done. apply lookup_insert_eq.
    - apply lookup_insert_eq. }
  destruct (foldl place_listed ([], counts) ys) as [res1 m1] eqn:E1; simpl.
  erewrite bind_returns; last first.
  { eapply array_items_array. rewrite insert_insert_eq.
    rewrite lookup_insert_ne by done. apply Hrest. }
  erewrite bind_returns; last first.
  { apply (emit_loop Store.take_body take_one _ r cm res1 m1).
    - intros. by apply take_body_run.
    - done.
    - apply lookup_insert_eq.
    - rewrite lookup_insert_ne by done. apply lookup_insert_eq. }
  eexists r, _, _. split; [done|]. split.
  - unfold orderedList; simpl. fold rest. fold counts. by rewrite E1.
  - split; [done|]. apply lookup_insert_eq.
Qed.

(** The guards: a first argument that is no array gives a new empty
    array; otherwise a second argument that is no array gives back the
    first argument itself, the same reference. *)
Lemma orderedList_guards h (list1 list2 : Store.val) :
  (Store.isArray list1 h).1 = Store.Returns false →
  ∃ r, Store.orderedList list1 list2 h
       = (Store.Returns (Store.VRef r), <[r := Store.CArray []]> h)
       ∧ h !! r = None.
Proof.
  intros Ha. unfold Store.orderedList.
  assert (Hrun : Store.isArray list1 h = (Store.Returns false, h)).
  { destruct list1 as [p|l]; [done|]. revert Ha.
    unfold Store.isArray, mbind, Store.M_bind, Store.read; simpl.
    by intros [= ->]. }
  erewrite bind_returns by done. simpl.
  exists (fresh (dom h)). split; [done | apply fresh_lookup].
Qed.

Lemma orderedList_guard_second h l1 items (list2 : Store.val) :
  h !! l1 = Some (Store.CArray items) →
  (Store.isArray list2 h).1 = Store.Returns false →
  Store.orderedList (Store.VRef l1) list2 h = (Store.Returns (Store.VRef l1), h).
Proof.
  intros H1 Ha. unfold Store.orderedList.
  assert (Hrun : Store.isArray list2 h = (Store.Returns false, h)).
  { destruct list2 as [p|l]; [done|]. revert Ha.
    unfold Store.isArray, mbind, Store.M_bind, Store.read; simpl.
    by intros [= ->]. }
  erewrite bind_returns by (by eapply isArray_array). simpl.
  erewrite bind_returns by done.
  by erewrite bind_returns by (by eapply isArray_array).
Qed.
End runs.

Section dedup_runs.
Implicit Types (h hb : gmap Store.loc Store.cell) (l seen out : Store.loc).



Lemma get_value_option h hb l o :
  hb ⊆ h → represents hb (Store.VRef l) (EOption o) →
  Store.get_value (Store.VRef l) h = (Store.Returns (str (value o)), h).
Proof.
  intros Hsub Hrep. inversion Hrep as [| |? props symbols ? Hl Hv Hlab]; subst.
  apply (lookup_weaken _ _ _ _ Hl) in Hsub.
  unfold Store.get_value, mbind, Store.M_bind, Store.read. by rewrite Hsub, Hv.
Qed.






End dedup_runs.

Section union_runs.
Implicit Types (h hb : gmap Store.loc Store.cell) (l a : Store.loc).
Implicit Types (props : js_object Store.val) (acc : js_object FieldOption).

Lemma related_keys hb props acc : related hb props acc → props.*1 = acc.*1.
Proof.
  induction 1 as [|[k v] [k' o] props acc [Hk _] _ IH]; [done|].
  rewrite !fmap_cons. simpl in Hk. by rewrite Hk, IH.
Qed.

Lemma obj_insert_index_related hb props acc n key v o :
  related hb props acc → represents hb v (EOption o) →
  related hb (obj_insert_index n key v props) (obj_insert_index n key o acc).
Proof.
  intros Hrel Hv. induction Hrel as [|[k x] [k' y] props acc [Hk Hx] Hrest IH]; simpl in *.
  - by repeat constructor.
  - subst k'. destruct (array_index k) as [n'|].
    + destruct (n' <? n)%N; by repeat constructor.
    + by repeat constructor.
Qed.

Lemma obj_set_related hb props acc key v o :
  related hb props acc → represents hb v (EOption o) →
  related hb (obj_set key v props) (obj_set key o acc).
Proof.
  intros Hrel Hv. unfold obj_set. rewrite (related_keys hb props acc Hrel).
  case_decide.
  - apply Forall2_fmap. eapply Forall2_impl; [apply Hrel|].
    intros [k x] [k' y] [Hk Hx]; simpl in *. subst k'.
    case_decide; by split.
  - destruct (array_index key).
    + by apply obj_insert_index_related.
    + apply Forall2_app; [done|]. by repeat constructor.
Qed.

Lemma obj_spread_related hb target ptarget source psource :
  related hb target ptarget → related hb source psource →
  related hb (obj_spread target source) (obj_spread ptarget psource).
Proof.
  intros Ht Hs. revert target ptarget Ht.
  induction Hs as [|[k x] [k' y] source psource [Hk Hx] Hrest IH];
    intros target ptarget Ht; [done|].
  simpl in *. subst k'. apply IH. by apply obj_set_related.
Qed.

Lemma obj_values_related hb props acc :
  related hb props acc →
  Forall2 (λ v o, represents hb v (EOption o)) (obj_values props) (obj_values acc).
Proof.
  intros Hrel. unfold obj_values. apply Forall2_fmap.
  eapply Forall2_impl; [apply Hrel|]. by intros [k x] [k' y] [_ Hx].
Qed.

Lemma obj_props_object h a props symbols :
  h !! a = Some (Store.CObject props symbols) →
  Store.obj_props (Store.VRef a) h = (Store.Returns (props, symbols), h).
Proof. intros Ha. unfold Store.obj_props, mbind, Store.M_bind, Store.read. by rewrite Ha. Qed.

(** The reducer, run beside the functional reducer. *)
Lemma reduce_loop_run c hb vs options :
  Forall2 (λ v o, represents hb v (EOption o)) vs options →
  ∀ h a props symbols acc,
    hb ⊆ h →
    h !! a = Some (Store.CObject props symbols) →
    related hb props acc →
    ∃ a' h' props' symbols',
      Store.for_each (Store.union_body c) vs (Store.VRef a) h
      = (Store.Returns (Store.VRef a'), h')
      ∧ h ⊆ h'
      ∧ h' !! a' = Some (Store.CObject props' symbols')
      ∧ related hb props' (foldl union_step acc options).
Proof.
  induction 1 as [|v o vs options Hvo Hrest IH]; intros h a props symbols acc Hsub Ha Hrel.
  - exists a, h, props, symbols. by split_and!.
  - cbn [Store.for_each foldl].
    inversion Hvo as [| |l ? ? ? Hl Hv Hlab]; subst.
    erewrite bind_returns; last first.
    { unfold Store.union_body.
      erewrite bind_returns by (by apply obj_props_object).
      erewrite bind_returns by (by eapply get_value_option).
      erewrite bind_returns by done.
      erewrite bind_returns by apply alloc_run. done. }
    assert (Hfresh := fresh_lookup h). cbn [fst snd].
    destruct (IH (<[fresh (dom h) := Store.CObject
                     (obj_set (value o) (Store.VRef l) (obj_spread [] props))
                     (Store.sym_spread [] symbols)]> h)
                 (fresh (dom h))
                 (obj_set (value o) (Store.VRef l) (obj_spread [] props))
                 (Store.sym_spread [] symbols)
                 (union_step acc o))
      as (a' & h' & props' & symbols' & Hrun & Hsub' & Ha' & Hrel').
    + by etrans; [|apply insert_subseteq].
    + apply lookup_insert_eq.
    + unfold union_step. apply obj_set_related; [|done].
      apply obj_spread_related; [constructor | done].
    + exists a', h', props', symbols'. split_and!; [done| |done..].
      by etrans; [apply insert_subseteq|].
Qed.

Lemma reduce_options_run c hb h l vs options :
  hb ⊆ h →
  h !! l = Some (Store.CArray vs) →
  Forall2 (λ v o, represents hb v (EOption o)) vs options →
  ∃ a' h' props' symbols',
    Store.reduce_options c (Store.VRef l) h = (Store.Returns (Store.VRef a'), h')
    ∧ h ⊆ h'
    ∧ h' !! a' = Some (Store.CObject props' symbols')
    ∧ related hb props' (foldl union_step [] options).
Proof.
  intros Hsub Hl Hrep. unfold Store.reduce_options.
  erewrite bind_returns by (by eapply array_items_array).
  erewrite bind_returns by apply alloc_run.
  assert (Hfresh := fresh_lookup h).
  destruct (reduce_loop_run c hb vs options Hrep
              (<[fresh (dom h) := Store.CObject [] []]> h) (fresh (dom h)) [] [] [])
    as (a' & h' & props' & symbols' & Hrun & Hsub' & Ha' & Hrel').
  - by etrans; [|apply insert_subseteq].
  - apply lookup_insert_eq.
  - constructor.
  - exists a', h', props', symbols'. split_and!; [done| |done..].
    by etrans; [apply insert_subseteq|].
Qed.

(** Two stored arrays of options: the call returns a new array holding
    references to the options the functional [fieldOptionsUnion] returns,
    in the same order. *)
Lemma fieldOptionsUnion_refines c h l1 l2 vs1 vs2 options1 options2 :
  h !! l1 = Some (Store.CArray vs1) →
  h !! l2 = Some (Store.CArray vs2) →
  Forall2 (λ v o, represents h v (EOption o)) vs1 options1 →
  Forall2 (λ v o, represents h v (EOption o)) vs2 options2 →
  ∃ r h' out,
    Store.fieldOptionsUnion c (Store.VRef l1) (Store.VRef l2) h
    = (Store.Returns (Store.VRef r), h')
    ∧ h !! r = None
    ∧ h' !! r = Some (Store.CArray out)
    ∧ Forall2 (λ v o, represents h v (EOption o)) out (fieldOptionsUnion options1 options2).
Proof.
  intros H1 H2 Hrep1 Hrep2. unfold Store.fieldOptionsUnion.
  destruct (reduce_options_run c h h l1 vs1 options1)
    as (a1 & h1 & p1 & s1 & Hrun1 & Hs1 & Ha1 & Hr1); [done..|].
  erewrite bind_returns by apply Hrun1.
  destruct (reduce_options_run c h h1 l2 vs2 options2)
    as (a2 & h2 & p2 & s2 & Hrun2 & Hs2 & Ha2 & Hr2);
    [done | by eapply lookup_weaken | done |].
  erewrite bind_returns by apply Hrun2.
  erewrite bind_returns by (apply obj_props_object; by eapply lookup_weaken).
  erewrite bind_returns by (by apply obj_props_object).
  erewrite bind_returns by apply alloc_run.
  erewrite bind_returns by (apply obj_props_object; apply lookup_insert_eq).
  erewrite bind_returns by apply alloc_run. cbn [fst snd].
  set (h3 := <[fresh (dom h2) := _]> h2).
  assert (Hfresh := fresh_lookup h3).
  assert (Hsub : h ⊆ h3).
  { etrans; [apply Hs1|]. etrans; [apply Hs2|]. apply insert_subseteq, fresh_lookup. }
  eexists _, _, _. split; [done|]. split_and!.
  - destruct (h !! fresh (dom h3)) as [c'|] eqn:E; [|done].
    apply (lookup_weaken _ _ _ _ E) in Hsub. congruence.
  - apply lookup_insert_eq.
  - unfold fieldOptionsUnion. apply obj_values_related.
    apply obj_spread_related; [|done].
    apply obj_spread_related; [constructor | done].
Qed.
End union_runs.

End Refinement.

(** ** The arguments are not mutated *)

(** C8: whatever the arguments, of the declared types or not, and however
    the call ends, every cell the heap held before a call of
    [orderedList], [fieldOptionsUnion] or [deduplicateOptions] (the
    argument arrays and the objects they hold among them) is held
    unchanged after it, whatever the conversions of a property key give. *)
Theorem inputs_not_mutated (coerce : Store.coercions) (h : gmap Store.loc Store.cell)
    (a b : Store.val) (l : Store.loc) (c : Store.cell) :
  h !! l = Some c →
  (Store.orderedList a b h).2 !! l = Some c
  ∧ (Store.fieldOptionsUnion coerce a b h).2 !! l = Some c
  ∧ (Store.deduplicateOptions a h).2 !! l = Some c.
Proof.
  intros Hl. split_and!.
  - destruct (StoreFacts.keeps_orderedList h a b h) as [Hsub _]; [done|].
    by eapply lookup_weaken.
  - destruct (StoreFacts.keeps_fieldOptionsUnion h coerce a b h) as [Hsub _]; [done|].
    by eapply lookup_weaken.
  - destruct (StoreFacts.keeps_deduplicateOptions h a h) as [Hsub _]; [done|].
    by eapply lookup_weaken.
Qed.

Lemma inputs_not_mutated_witness :
  (Store.orderedList (Store.VRef 1%positive) (Store.VRef 2%positive) sample_heap).2 !! 1%positive
  = Some (Store.CArray [str "a"; str ""; str "b"])
  ∧ (Store.fieldOptionsUnion sample_coercions (Store.VRef 1%positive) (Store.VRef 2%positive)
       sample_heap).2 !! 1%positive
    = Some (Store.CArray [str "a"; str ""; str "b"])
  ∧ (Store.deduplicateOptions (Store.VRef 1%positive) sample_heap).2 !! 1%positive
    = Some (Store.CArray [str "a"; str ""; str "b"]).
Proof.
  apply (inputs_not_mutated sample_coercions sample_heap
           (Store.VRef 1%positive) (Store.VRef 2%positive) 1%positive
           (Store.CArray [str "a"; str ""; str "b"])).
  vm_compute. reflexivity.
Defined.

(** ** The refinement lemmas on the sample heap *)

Example orderedList_refines_sample :
  ∃ r h' out,
    Store.orderedList (Store.VRef 1%positive) (Store.VRef 2%positive) sample_heap
    = (Store.Returns (Store.VRef r), h')
    ∧ orderedList (Arr ["a"; ""; "b"]) (Arr ["b"; "_"]) = Normal (Arr out)
    ∧ sample_heap !! r = None
    ∧ h' !! r = Some (Store.CArray (str <$> out)).
Proof. by apply (Refinement.orderedList_refines sample_heap 1%positive 2%positive). Qed.

Example fieldOptionsUnion_refines_sample :
  ∃ r h' out,
    Store.fieldOptionsUnion sample_coercions (Store.VRef 7%positive) (Store.VRef 7%positive)
      sample_heap
    = (Store.Returns (Store.VRef r), h')
    ∧ sample_heap !! r = None
    ∧ h' !! r = Some (Store.CArray out)
    ∧ Forall2 (λ v o, represents sample_heap v (EOption o)) out
        (fieldOptionsUnion
           [{| value := "yes"; label := "Y" |}; {| value := "no"; label := "No" |}]
           [{| value := "yes"; label := "Y" |}; {| value := "no"; label := "No" |}]).
Proof.
  assert (Hrep : Forall2 (λ v o, represents sample_heap v (EOption o))
                   [Store.VRef 4%positive; Store.VRef 5%positive]
                   [{| value := "yes"; label := "Y" |}; {| value := "no"; label := "No" |}]).
  { repeat constructor; by econstructor. }
  by apply (Refinement.fieldOptionsUnion_refines sample_coercions sample_heap
              7%positive 7%positive _ _ _ _ eq_refl eq_refl).
Qed.

(** ** More about [orderedList]: the order of the result *)

Section reorder_order.
Implicit Types (l listed : list string) (c : gmultiset string).

Lemma list_filter_sublist {A} (f : A → bool) (l : list A) : List.filter f l `sublist_of` l.
Proof.
  induction l as [|x l IH]; simpl; [done|].
  destruct (f x); [by apply sublist_skip | by apply sublist_cons].
Qed.

(** A walk appends, in order, some of the tokens it visits. *)
Lemma walk_take_appends l st :
  ∃ emitted, (foldl reference_take st l).1 = st.1 ++ emitted ∧ emitted `sublist_of` l.
Proof.
  revert st. induction l as [|x l IH]; intros st; simpl.
  - exists []. by rewrite app_nil_r.
  - destruct (IH (reference_take st x)) as (emitted & -> & Hsub).
    unfold reference_take. case_decide; simpl.
    + exists (x :: emitted). rewrite <- app_assoc. split; [done|]. by apply sublist_skip.
    + exists emitted. split; [done|]. by apply sublist_cons.
Qed.

(** The walk over [list2] appends, in order, tokens of [list2] other than
    the placeholder, each as often as the counts and [list2] both allow,
    and takes them off the counts. *)
Lemma walk_listed_counts l st :
  ∃ emitted,
    foldl reference_listed st l = (st.1 ++ emitted, st.2 ∖ list_to_set_disj emitted)
    ∧ (emitted `sublist_of` l)
    ∧ ("_" ∉ emitted)
    ∧ ∀ x, x ≠ "_" →
        multiplicity x (list_to_set_disj emitted : gmultiset string)
        = (multiplicity x st.2) `min` (multiplicity x (list_to_set_disj l : gmultiset string)).
Proof.
  revert st. induction l as [|x0 l IH]; intros [out c]; simpl.
  - exists []. rewrite app_nil_r. split_and!; [|done| |].
    + f_equal. multiset_solver.
    + apply not_elem_of_nil.
    + intros x _. rewrite list_to_set_disj_nil, multiplicity_empty. lia.
  - unfold reference_listed at 2, reference_take. simpl.
    destruct (decide (x0 = "_")) as [->|Hx0].
    + destruct (IH (out, c)) as (emitted & Hwalk & Hsub & Hno & Hcount).
      exists emitted. split_and!; [done | by apply sublist_cons | done |].
      intros x Hx. rewrite (Hcount x Hx). simpl.
      rewrite multiplicity_disj_union, multiplicity_singleton_ne by done. lia.
    + destruct (decide (0 < multiplicity x0 c)) as [Hpos|Hzero].
      * destruct (IH (out ++ [x0], c ∖ {[+ x0 +]})) as (emitted & Hwalk & Hsub & Hno & Hcount).
        exists (x0 :: emitted). rewrite Hwalk. simpl. split_and!.
        -- rewrite <- app_assoc. f_equal. multiset_solver.
        -- by apply sublist_skip.
        -- rewrite not_elem_of_cons. by split.
        -- intros x Hx. rewrite !multiplicity_disj_union, (Hcount x Hx). simpl.
           rewrite multiplicity_difference, !multiplicity_singleton.
           case_decide; [subst x|]; lia.
      * destruct (IH (out, c)) as (emitted & Hwalk & Hsub & Hno & Hcount).
        exists emitted. split_and!; [done | by apply sublist_cons | done |].
        intros x Hx. rewrite (Hcount x Hx). simpl.
        rewrite multiplicity_disj_union, multiplicity_singleton.
        case_decide; [subst x|]; lia.
Qed.

(** With every count still available and no placeholder, the walk over
    [list2] emits [list2] itself. *)
Lemma walk_listed_emits_all l out c :
  "_" ∉ l → list_to_set_disj l ⊆ c →
  foldl reference_listed (out, c) l = (out ++ l, c ∖ list_to_set_disj l).
Proof.
  revert out c. induction l as [|x l IH]; intros out c Hno Hsub; simpl in *.
  - rewrite app_nil_r. f_equal. multiset_solver.
  - apply not_elem_of_cons in Hno as [Hx Hno].
    unfold reference_listed at 2. rewrite decide_False by done.
    unfold reference_take; simpl. rewrite decide_True by multiset_solver.
    rewrite IH; [|done|multiset_solver].
    rewrite <- app_assoc. f_equal. multiset_solver.
Qed.

Lemma walk_take_nothing l out : foldl reference_take (out, ∅) l = (out, ∅).
Proof.
  induction l as [|x l IH]; simpl; [done|].
  unfold reference_take at 2; simpl.
  rewrite decide_False by (rewrite multiplicity_empty; lia). apply IH.
Qed.
End reorder_order.

(** X1: on two arrays the result of [orderedList] is a first part taken
    in order from [list2], free of the placeholder, followed by a second
    part taken in order from the non-empty tokens of [list1].  The first
    part holds each token as often as [list2] and the non-empty tokens of
    [list1] both hold it; the second part holds what is left of them. *)
Theorem orderedList_listed_then_leftover (l1 l2 : list string) :
  ∃ listed leftover,
    orderedList (Arr l1) (Arr l2) = Normal (Arr (listed ++ leftover))
    ∧ (listed `sublist_of` l2)
    ∧ ("_" ∉ listed)
    ∧ (leftover `sublist_of` List.filter truthy l1)
    ∧ (∀ token, token ≠ "_" →
         count_occ String.string_dec listed token
         = (count_occ String.string_dec (List.filter truthy l1) token)
           `min` (count_occ String.string_dec l2 token))
    ∧ (∀ token,
         count_occ String.string_dec leftover token
         = count_occ String.string_dec (List.filter truthy l1) token
           - count_occ String.string_dec listed token).
Proof.
  rewrite orderedList_reference. unfold reference_reorder.
  set (rest := List.filter truthy l1).
  destruct (walk_listed_counts l2 ([], list_to_set_disj rest))
    as (listed & Hwalk & Hsub2 & Hno & Hcount).
  rewrite Hwalk. simpl.
  set (c := list_to_set_disj rest ∖ list_to_set_disj listed : gmultiset string).
  destruct (walk_take_appends rest (listed, c)) as (leftover & Hleft & Hsub1).
  assert (Hkeeps := walk_conserves _ rest reference_take_conserves (listed, c)).
  rewrite walk_exhausts in Hkeeps by (unfold c; simpl; multiset_solver).
  rewrite Hleft in Hkeeps. simpl in *. rewrite list_to_set_disj_app in Hkeeps.
  assert (Hrest : (list_to_set_disj leftover : gmultiset string) = c) by multiset_solver.
  exists listed, leftover. rewrite Hleft. split_and!; [done..| |].
  - intros token Htoken. rewrite <- !multiplicity_list_to_set_disj. by apply Hcount.
  - intros token. rewrite <- !multiplicity_list_to_set_disj, Hrest. unfold c.
    by rewrite multiplicity_difference.
Qed.

(** X2: when [list2] is a rearrangement of [list1], [list1] holds no
    empty string and [list2] no placeholder, the result is [list2]. *)
Theorem orderedList_full_order (l1 l2 : list string) :
  l2 ≡ₚ l1 → "" ∉ l1 → "_" ∉ l2 →
  orderedList (Arr l1) (Arr l2) = Normal (Arr l2).
Proof.
  intros Hperm Hempty Hplace.
  rewrite orderedList_reference, filter_truthy_id by done.
  unfold reference_reorder.
  rewrite <- (list_to_set_disj_perm _ _ Hperm).
  rewrite walk_listed_emits_all by done.
  replace (list_to_set_disj l2 ∖ list_to_set_disj l2 : gmultiset string) with
    (∅ : gmultiset string) by multiset_solver.
  by rewrite walk_take_nothing.
Qed.

Lemma orderedList_full_order_witness :
  orderedList (Arr ["a"; "b"; "c"; "b"]) (Arr ["b"; "c"; "b"; "a"])
  = Normal (Arr ["b"; "c"; "b"; "a"]).
Proof.
  apply (orderedList_full_order ["a"; "b"; "c"; "b"] ["b"; "c"; "b"; "a"]).
  - compute_done.
  - compute_done.
  - compute_done.
Defined.

(** ** More about [deduplicateOptions] *)

Lemma first_seen_id (options : list entry) :
  Forall (λ e, truthy_entry e = true) options →
  NoDup (values_of options) →
  first_seen options = options.
Proof.
  induction options as [|e options IH] using rev_ind; [done|].
  intros [Hall He]%Forall_app Hnd. rewrite first_seen_snoc, kept_last.
  rewrite values_of_app in Hnd. apply NoDup_app in Hnd as (Hnd & Hdisj & _).
  rewrite IH by done. rewrite Forall_singleton in He.
  destruct e as [| |o]; simpl in *; [done..|].
  rewrite decide_False; [done|]. intros Hin. apply (Hdisj _ Hin). by left.
Qed.

(** X3: deduplicating twice is deduplicating once. *)
Theorem deduplicateOptions_idempotent (options : list entry) :
  deduplicateOptions (Arr options) ≫= deduplicateOptions
  = deduplicateOptions (Arr options).
Proof.
  assert (Hrun : ∀ l, deduplicateOptions (Arr l) = Normal (Arr (first_seen l))).
  { intros l. unfold deduplicateOptions; simpl. by rewrite dedup_loop. }
  rewrite Hrun. simpl. rewrite Hrun. do 2 f_equal.
  apply first_seen_id; [apply first_seen_truthy | apply first_seen_NoDup].
Qed.

(** X4: a list of options with pairwise distinct values is returned as it
    is. *)
Theorem deduplicateOptions_distinct (options : list FieldOption) :
  NoDup (value <$> options) →
  deduplicateOptions (Arr (EOption <$> options)) = Normal (Arr (EOption <$> options)).
Proof.
  intros Hnd. unfold deduplicateOptions; simpl. rewrite dedup_loop. simpl.
  do 2 f_equal. apply first_seen_id.
  - apply Forall_fmap, Forall_true. done.
  - replace (values_of (EOption <$> options)) with (value <$> options); [done|].
    unfold values_of. induction options as [|o options IH]; [done|].
    rewrite !fmap_cons. simpl. f_equal. apply IH. by apply NoDup_cons in Hnd as [_ ?].
Qed.

Lemma deduplicateOptions_distinct_witness :
  deduplicateOptions
    (Arr (EOption <$> [{| value := "a"; label := "A" |}; {| value := "b"; label := "A" |}]))
  = Normal
      (Arr (EOption <$> [{| value := "a"; label := "A" |}; {| value := "b"; label := "A" |}])).
Proof.
  apply deduplicateOptions_distinct.
  compute_done.
Defined.

(** ** Array-index keys *)

Section array_index_facts.
Implicit Types (s key : string) (acc n : N).

Lemma digit_of_bound c d : digit_of c = Some d → (d < 10)%N.
Proof.
  unfold digit_of. case_match eqn:E; [|done]. intros [= <-].
  apply andb_true_iff in E as [? ?%N.leb_le]. lia.
Qed.

Lemma digit_of_inj c1 c2 d : digit_of c1 = Some d → digit_of c2 = Some d → c1 = c2.
Proof.
  unfold digit_of. repeat case_match; try done. intros [= H1] [= H2].
  repeat match goal with
         | H : (_ && _)%bool = true |- _ => apply andb_true_iff in H as [?%N.leb_le ?%N.leb_le]
         end.
  rewrite <- (ascii_N_embedding c1), <- (ascii_N_embedding c2). f_equal. lia.
Qed.

(** Reading digits after [acc] shifts [acc] by their number and adds
    their own value, which has no more digits than they are. *)
Lemma parse_digits_value s acc0 r0 :
  parse_digits acc0 s = Some r0 →
  ∃ v, (v < 10 ^ N.of_nat (String.length s))%N
       ∧ ∀ acc, parse_digits acc s = Some (acc * 10 ^ N.of_nat (String.length s) + v)%N.
Proof.
  revert acc0 r0. induction s as [|c s IH]; intros acc0 r0.
  - intros _. exists 0%N. simpl. split; [lia|]. intros acc. f_equal. lia.
  - change (String.length (String c s)) with (S (String.length s)).
    rewrite Nat2N.inj_succ, N.pow_succ_r'. cbn [parse_digits].
    destruct (digit_of c) as [d|] eqn:Hd; simpl; [|done]. intros Hr.
    apply digit_of_bound in Hd as Hlt.
    destruct (IH _ _ Hr) as (v & Hv & Hall).
    exists (d * 10 ^ N.of_nat (String.length s) + v)%N. split; [nia|].
    intros acc. rewrite Hall. f_equal. lia.
Qed.

Lemma parse_digits_inj s1 s2 v :
  String.length s1 = String.length s2 →
  parse_digits 0 s1 = Some v → parse_digits 0 s2 = Some v → s1 = s2.
Proof.
  revert s2 v. induction s1 as [|c1 s1 IH]; intros [|c2 s2] v Hlen; simpl in *; try done.
  destruct (digit_of c1) as [d1|] eqn:Hd1; simpl; [|done].
  destruct (digit_of c2) as [d2|] eqn:Hd2; simpl; [|done].
  intros H1 H2. injection Hlen as Hlen.
  destruct (parse_digits_value _ _ _ H1) as (v1 & Hv1 & Hall1).
  destruct (parse_digits_value _ _ _ H2) as (v2 & Hv2 & Hall2).
  rewrite Hall1 in H1. rewrite Hall2 in H2. rewrite <- Hlen in *.
  injection H1 as H1. injection H2 as H2.
  apply digit_of_bound in Hd1 as Hb1. apply digit_of_bound in Hd2 as Hb2.
  set (P := (10 ^ N.of_nat (String.length s1))%N) in *.
  assert (Hd : d1 = d2) by nia. subst d2.
  assert (Hv : v1 = v2) by nia. subst v2.
  f_equal; [by eapply digit_of_inj|].
  apply (IH s2 v1 Hlen).
  - rewrite Hall1. f_equal; lia.
  - rewrite Hall2. f_equal; lia.
Qed.

(** The value of an array-index key, and how its length bounds it. *)
Lemma array_index_value key n :
  array_index key = Some n →
  parse_digits 0 key = Some n
  ∧ (n < 10 ^ N.of_nat (String.length key))%N
  ∧ ((2 ≤ String.length key)%nat → (10 ^ N.of_nat (String.length key - 1) ≤ n)%N).
Proof.
  unfold array_index. destruct key as [|c rest]; [done|].
  destruct (Ascii.eqb c "0" && negb (String.eqb rest "")) eqn:Hlead; [done|].
  destruct (parse_digits 0 (String c rest)) as [r|] eqn:Hr; simpl; [|done].
  case_match; [|done]. intros [= <-]. split; [done|].
  destruct (parse_digits_value _ _ _ Hr) as (v & Hv & Hall).
  rewrite Hall in Hr. injection Hr as <-. cbn [String.length] in *. split; [lia|].
  intros Hlen.
  assert (Hrest : rest ≠ "") by (intros ->; simpl in Hlen; lia).
  assert (Hc : c ≠ "0"%char).
  { intros ->. rewrite Ascii.eqb_refl in Hlead. simpl in Hlead.
    by apply negb_false_iff, String.eqb_eq in Hlead. }
  specialize (Hall 0%N). cbn [parse_digits] in Hall.
  destruct (digit_of c) as [d|] eqn:Hd; simpl in Hall; [|done].
  assert (Hd0 : d ≠ 0%N).
  { intros ->. apply Hc. by eapply digit_of_inj. }
  destruct (parse_digits_value rest _ _ Hall) as (v' & Hv' & Hall').
  rewrite Hall' in Hall. injection Hall as Hall.
  rewrite Nat.sub_0_r. rewrite Nat2N.inj_succ, N.pow_succ_r' in Hall.
  assert (10 ^ N.of_nat (String.length rest) <= d * 10 ^ N.of_nat (String.length rest))%N by nia.
  lia.
Qed.

Lemma array_index_inj k1 k2 n :
  array_index k1 = Some n → array_index k2 = Some n → k1 = k2.
Proof.
  intros H1 H2.
  destruct (array_index_value _ _ H1) as (Hp1 & Hu1 & Hl1).
  destruct (array_index_value _ _ H2) as (Hp2 & Hu2 & Hl2).
  assert (Hpow : ∀ a b : nat, a < b → (10 ^ N.of_nat a ≤ 10 ^ N.of_nat (b - 1))%N).
  { intros a b Hab. apply N.pow_le_mono_r; lia. }
  apply (parse_digits_inj k1 k2 n); [|done..].
  assert (Hn1 : String.length k1 ≠ 0) by (by destruct k1).
  assert (Hn2 : String.length k2 ≠ 0) by (by destruct k2).
  destruct (decide (String.length k1 < String.length k2)) as [Hlt|Hge].
  { specialize (Hpow _ _ Hlt). specialize (Hl2 ltac:(lia)). lia. }
  destruct (decide (String.length k2 < String.length k1)) as [Hlt|Hge'].
  { specialize (Hpow _ _ Hlt). specialize (Hl1 ltac:(lia)). lia. }
  lia.
Qed.
End array_index_facts.

(** ** Well-formed objects *)

Section wf_proofs.
Context {V : Type}.
Implicit Types (o : js_object V) (key k : string) (v : V) (n : N).

(** Every key stays before a key that is no array index. *)
Lemma key_before_plain k1 k2 : array_index k2 = None → key_before k1 k2.
Proof. intros H2. unfold key_before. rewrite H2. by destruct (array_index k1). Qed.

Lemma key_before_index k1 k2 n2 :
  array_index k2 = Some n2 →
  key_before k1 k2 ↔ ∃ n1, array_index k1 = Some n1 ∧ (n1 < n2)%N.
Proof.
  intros H2. unfold key_before. rewrite H2.
  destruct (array_index k1) as [n1|]; [|by split; [|intros (? & ? & ?)]].
  split; [by exists n1 | by intros (? & [= <-] & ?)].
Qed.

Lemma key_before_trans k1 k2 k3 : key_before k1 k2 → key_before k2 k3 → key_before k1 k3.
Proof.
  unfold key_before.
  destruct (array_index k1), (array_index k2), (array_index k3); try done. lia.
Qed.

Lemma obj_insert_index_sorted n key v o :
  array_index key = Some n → key ∉ o.*1 →
  StronglySorted key_before o.*1 →
  StronglySorted key_before (obj_insert_index n key v o).*1.
Proof.
  intros Hkey. induction o as [|[k' v'] o IH]; intros Hnew Hsorted.
  { simpl. by repeat constructor. }
  rewrite fmap_cons in Hnew, Hsorted. simpl in Hnew, Hsorted.
  apply not_elem_of_cons in Hnew as [Hne Hnew].
  apply StronglySorted_inv in Hsorted as [Hsorted Hall].
  assert (Hhere : StronglySorted key_before (key :: k' :: o.*1)
                  ∨ ∃ n', array_index k' = Some n' ∧ (n' < n)%N).
  { destruct (array_index k') as [n'|] eqn:Hk'.
    - destruct (decide (n' < n)%N) as [Hlt|Hge]; [right; by eexists|]. left.
      assert (Hlt : (n < n')%N).
      { destruct (decide (n = n')) as [->|]; [|lia].
        destruct Hne. by eapply array_index_inj. }
      assert (Hkk : key_before key k').
      { apply (key_before_index _ _ n'); [done|]. by exists n. }
      constructor; [by constructor|]. constructor; [done|].
      eapply Forall_impl; [apply Hall|]. intros k''. by apply key_before_trans.
    - left. assert (Hkk : key_before key k') by (by apply key_before_plain).
      constructor; [by constructor|]. constructor; [done|].
      eapply Forall_impl; [apply Hall|]. intros k''. by apply key_before_trans. }
  simpl. destruct (array_index k') as [n'|] eqn:Hk'.
  - destruct (n' <? n)%N eqn:Hcmp.
    + rewrite fmap_cons. simpl. constructor; [by apply IH|].
      rewrite (fmap_Permutation fst _ _ (obj_insert_index_perm n key v o)).
      rewrite fmap_cons. constructor; [|done].
      apply (key_before_index _ _ n); [done|]. exists n'. split; [done|].
      by apply N.ltb_lt.
    + destruct Hhere as [Hs|(n'' & [= <-] & Hlt)]; [done|].
      apply N.ltb_ge in Hcmp. lia.
  - destruct Hhere as [Hs|(n'' & ? & _)]; done.
Qed.

(** Defining a property keeps the object well-formed. *)
Lemma obj_set_wf key v o : obj_wf o → obj_wf (obj_set key v o).
Proof.
  intros [Hnd Hsorted]. split; [by apply obj_set_keys|].
  unfold obj_set. case_decide as Hin.
  - by rewrite obj_replace_keys.
  - destruct (array_index key) as [n|] eqn:Hkey.
    + by apply obj_insert_index_sorted.
    + rewrite fmap_app. apply StronglySorted_app_2; [|done|by repeat constructor].
      intros k1 k2 _ Hk2. apply list_elem_of_singleton in Hk2 as ->.
      by apply key_before_plain.
Qed.

Lemma obj_spread_wf (target source : js_object V) :
  obj_wf target → obj_wf (obj_spread target source).
Proof.
  revert target. induction source as [|[k v] source IH]; intros target Hwf; [done|].
  apply IH. by apply obj_set_wf.
Qed.

Lemma obj_from_entries_wf (entries : list (string * V)) : obj_wf (obj_from_entries entries).
Proof. apply (obj_spread_wf [] entries). split; constructor. Qed.

(** A new key that comes after all the others goes to the end. *)
Lemma obj_set_last key v o : obj_wf (o ++ [(key, v)]) → obj_set key v o = o ++ [(key, v)].
Proof.
  intros [Hnd Hsorted]. rewrite fmap_app in Hnd, Hsorted. simpl in Hnd, Hsorted.
  apply NoDup_app in Hnd as (_ & Hdisj & _).
  assert (Hnew : key ∉ o.*1).
  { intros Hin. apply (Hdisj _ Hin). by left. }
  unfold obj_set. rewrite decide_False by done.
  destruct (array_index key) as [n|] eqn:Hkey; [|done].
  assert (Hall : Forall (λ k', key_before k' key) o.*1).
  { apply Forall_forall. intros k' Hk'.
    eapply StronglySorted_app_1_elem_of; [apply Hsorted|done|by left]. }
  clear -Hall Hkey. induction o as [|[k' v'] o IH]; [done|].
  rewrite fmap_cons in Hall. apply Forall_cons in Hall as [Hk' Hall]. simpl in *.
  apply (key_before_index _ _ n) in Hk' as (n' & -> & Hlt); [|done].
  apply N.ltb_lt in Hlt. rewrite Hlt. by rewrite IH.
Qed.

(** Rebuilding a well-formed object from its entries gives it back. *)
Lemma obj_from_entries_id o : obj_wf o → obj_from_entries o = o.
Proof.
  induction o as [|[k v] o IH] using rev_ind; [done|]. intros Hwf.
  unfold obj_from_entries in *. rewrite foldl_snoc. simpl.
  rewrite IH; [by apply obj_set_last|].
  destruct Hwf as [Hnd Hsorted]. rewrite fmap_app in Hnd, Hsorted.
  split; [by apply NoDup_app in Hnd as (? & _) | by apply StronglySorted_app_1_l in Hsorted].
Qed.
End wf_proofs.

(** ** [mapObjectValues] *)

Section map_values_proofs.
Context {V W : Type}.
Implicit Types (obj : js_object V) (func : V → completion W).

Lemma map_entries_normal func (entries : list (string * V)) mapped :
  map_entries func entries = Normal mapped →
  mapped.*1 = entries.*1 ∧ Forall2 (λ v w, func v = Normal w) entries.*2 mapped.*2.
Proof.
  revert mapped. induction entries as [|[k v] entries IH]; intros mapped; simpl.
  - intros [= <-]. by split; [|constructor].
  - destruct (func v) as [w|e] eqn:Hv; simpl; [|done].
    destruct (map_entries func entries) as [rest|e] eqn:Hrest; simpl; [|done].
    intros [= <-]. destruct (IH rest eq_refl) as [Hkeys Hvals].
    rewrite !fmap_cons. simpl. split; [by rewrite Hkeys | by constructor].
Qed.

Lemma map_entries_throw func (entries : list (string * V)) e :
  map_entries func entries = Throw e ↔
  ∃ i kv, entries !! i = Some kv ∧ func kv.2 = Throw e
          ∧ ∀ j kv', j < i → entries !! j = Some kv' → ∃ w, func kv'.2 = Normal w.
Proof.
  induction entries as [|[k v] entries IH]; simpl.
  - split; [done|]. by intros (i & kv & ? & _).
  - destruct (func v) as [w|e0] eqn:Hv; simpl.
    + transitivity (map_entries func entries = Throw e).
      { destruct (map_entries func entries); simpl; by split. }
      rewrite IH. split.
      * intros (i & kv & Hi & Hthrow & Hbefore). exists (S i), kv.
        split_and!; [done..|]. intros [|j] kv' Hj Hkv'; simpl in Hkv'.
        -- injection Hkv' as <-. by exists w.
        -- apply (Hbefore j kv'); [lia|done].
      * intros ([|i] & kv & Hi & Hthrow & Hbefore); simpl in Hi.
        -- injection Hi as <-. simpl in Hthrow. congruence.
        -- exists i, kv. split_and!; [done..|].
           intros j kv' Hj Hkv'. apply (Hbefore (S j) kv'); [lia|done].
    + split.
      * intros [= ->]. exists 0, (k, v). split_and!; [done..|]. intros j kv' Hj. lia.
      * intros ([|i] & kv & Hi & Hthrow & Hbefore); simpl in Hi.
        -- injection Hi as <-. simpl in Hthrow. congruence.
        -- destruct (Hbefore 0 (k, v)) as [w Hw]; [lia|done|]. simpl in Hw. congruence.
Qed.

Lemma map_entries_pure (f : V → W) (entries : list (string * V)) :
  map_entries (λ v, Normal (f v)) entries = Normal ((λ kv, (kv.1, f kv.2)) <$> entries).
Proof.
  induction entries as [|[k v] entries IH]; [done|]. simpl. by rewrite IH.
Qed.

Lemma obj_wf_keys {A B} (o1 : js_object A) (o2 : js_object B) :
  o1.*1 = o2.*1 → obj_wf o1 → obj_wf o2.
Proof. unfold obj_wf. by intros ->. Qed.
End map_values_proofs.

(** X5: when [mapObjectValues] returns, the result has the keys of the
    object, in the same order, and under each key what the callback
    returned for the value there. *)
Theorem mapObjectValues_keys_and_values {V W} (obj : js_object V)
    (func : V → completion W) (out : js_object W) :
  obj_wf obj →
  mapObjectValues obj func = Normal out →
  out.*1 = obj.*1 ∧ Forall2 (λ v w, func v = Normal w) obj.*2 out.*2.
Proof.
  intros Hwf. unfold mapObjectValues, obj_entries.
  destruct (map_entries func obj) as [mapped|e] eqn:Hmap; simpl; [|done].
  intros [= <-]. destruct (map_entries_normal _ _ _ Hmap) as [Hkeys Hvals].
  rewrite obj_from_entries_id; [done|]. by apply (obj_wf_keys obj).
Qed.

Lemma mapObjectValues_keys_and_values_witness :
  [("2", 20%Z); ("a", 10%Z)].*1 = [("2", 19%Z); ("a", 9%Z)].*1
  ∧ Forall2 (λ v w, (λ v : Z, Normal (v + 1)%Z) v = Normal w)
      [("2", 19%Z); ("a", 9%Z)].*2 [("2", 20%Z); ("a", 10%Z)].*2.
Proof.
  apply (mapObjectValues_keys_and_values
           [("2", 19%Z); ("a", 9%Z)] (λ v : Z, Normal (v + 1)%Z)).
  - split; [compute_done|].
    repeat constructor; by vm_compute.
  - by vm_compute.
Defined.

(** X6: [mapObjectValues] throws exactly what the callback throws on the
    first value, in property order, on which it throws. *)
Theorem mapObjectValues_first_throw {V W} (obj : js_object V)
    (func : V → completion W) (e : js_error) :
  mapObjectValues obj func = Throw e ↔
  ∃ i kv, obj !! i = Some kv ∧ func kv.2 = Throw e
          ∧ ∀ j kv', j < i → obj !! j = Some kv' → ∃ w, func kv'.2 = Normal w.
Proof.
  rewrite <- map_entries_throw. unfold mapObjectValues, obj_entries.
  by destruct (map_entries func obj).
Qed.

(** X7: for callbacks that do not throw, mapping twice is mapping with
    the composed callback, and mapping with the identity gives the object
    back. *)
Theorem mapObjectValues_compose {U V W} (obj : js_object U) (f : U → V) (g : V → W) :
  obj_wf obj →
  (mapObjectValues obj (λ u, Normal (f u)) ≫= λ mapped, mapObjectValues mapped (λ v, Normal (g v)))
  = mapObjectValues obj (λ u, Normal (g (f u)))
  ∧ mapObjectValues obj (λ u, Normal u) = Normal obj.
Proof.
  intros Hwf.
  assert (Hpure : ∀ A B (o : js_object A) (h : A → B), obj_wf o →
            mapObjectValues o (λ a, Normal (h a)) = Normal ((λ kv, (kv.1, h kv.2)) <$> o)).
  { intros A B o h Ho. unfold mapObjectValues, obj_entries.
    rewrite map_entries_pure. simpl. rewrite obj_from_entries_id; [done|].
    apply (obj_wf_keys o); [|done]. rewrite <- list_fmap_compose.
    by apply list_fmap_ext. }
  split.
  - rewrite !Hpure by done. simpl. rewrite Hpure.
    + f_equal. rewrite <- list_fmap_compose. by apply list_fmap_ext.
    + apply (obj_wf_keys obj); [|done]. rewrite <- list_fmap_compose.
      by apply list_fmap_ext.
  - rewrite Hpure by done. f_equal. rewrite <- (list_fmap_id obj) at 2.
    apply list_fmap_ext. by intros i [k v].
Qed.

Lemma mapObjectValues_compose_witness :
  (mapObjectValues [("2", 19%Z); ("a", 9%Z)] (λ u, Normal (u + 1)%Z)
     ≫= λ mapped, mapObjectValues mapped (λ v, Normal (Z.to_nat v)))
  = mapObjectValues [("2", 19%Z); ("a", 9%Z)] (λ u, Normal (Z.to_nat (u + 1)%Z))
  ∧ mapObjectValues [("2", 19%Z); ("a", 9%Z)] (λ u, Normal u)
    = Normal [("2", 19%Z); ("a", 9%Z)].
Proof.
  apply (mapObjectValues_compose [("2", 19%Z); ("a", 9%Z)] (λ u, (u + 1)%Z) Z.to_nat).
  split; [compute_done|]. repeat constructor; by vm_compute.
Defined.

(** ** [getTopNWithOther] *)

Section top_n_proofs.
Implicit Types (entries sorted : list (string * float)) (x y z : string * float).

Lemma insert_desc_perm x sorted : insert_desc x sorted ≡ₚ x :: sorted.
Proof.
  induction sorted as [|y sorted IH]; simpl; [done|].
  destruct (sorts SortsAfter x y); [|done]. rewrite IH. apply Permutation_swap.
Qed.

Lemma sort_desc_perm entries : sort_desc entries ≡ₚ entries.
Proof.
  induction entries as [|x entries IH]; simpl; [done|].
  by rewrite insert_desc_perm, IH.
Qed.

Lemma sort_entries_perm engine_order entries :
  (∀ l, engine_order l ≡ₚ l) → sort_entries engine_order entries ≡ₚ entries.
Proof.
  intros Hengine. unfold sort_entries.
  destruct (consistent_comparator entries); [apply sort_desc_perm | apply Hengine].
Qed.

(** What a consistent comparator gives on three of the entries. *)
Lemma consistent_comparator_spec entries x y z :
  consistent_comparator entries = true →
  x ∈ entries → y ∈ entries → z ∈ entries →
  sort_compare x x = SortsSame
  ∧ (sort_compare x y = SortsSame → sort_compare y x = SortsSame)
  ∧ (sort_compare x y = SortsSame → sort_compare y z = SortsSame →
     sort_compare x z = SortsSame)
  ∧ (sort_compare x y = SortsBefore → sort_compare y z = SortsBefore →
     sort_compare x z = SortsBefore)
  ∧ (sort_compare x y = SortsAfter → sort_compare y z = SortsAfter →
     sort_compare x z = SortsAfter).
Proof.
  unfold consistent_comparator. rewrite forallb_forall.
  intros Hall Hx%list_elem_of_In Hy%list_elem_of_In Hz%list_elem_of_In.
  apply Hall, andb_true_iff in Hx as [Hrefl Hx]. rewrite forallb_forall in Hx.
  apply Hx in Hy as [[_ Hsym]%andb_true_iff Hy]%andb_true_iff.
  rewrite forallb_forall in Hy.
  apply Hy in Hz as [[Hsame Hbefore]%andb_true_iff Hafter]%andb_true_iff.
  unfold sorts in *. split_and!.
  - by apply bool_decide_eq_true in Hrefl.
  - intros H1. rewrite bool_decide_eq_true_2 in Hsym by done.
    by apply bool_decide_eq_true in Hsym.
  - intros H1 H2. rewrite !bool_decide_eq_true_2 in Hsame by done.
    by apply bool_decide_eq_true in Hsame.
  - intros H1 H2. rewrite !bool_decide_eq_true_2 in Hbefore by done.
    by apply bool_decide_eq_true in Hbefore.
  - intros H1 H2. rewrite !bool_decide_eq_true_2 in Hafter by done.
    by apply bool_decide_eq_true in Hafter.
Qed.

Section consistent.
Context (values : list (string * float)).
Context (Hconsistent : consistent_comparator values = true).

Lemma sorts_after_before x y :
  x ∈ values → y ∈ values →
  sort_compare x y = SortsAfter → sort_compare y x = SortsBefore.
Proof.
  intros Hx Hy Hxy.
  destruct (consistent_comparator_spec values x y x Hconsistent Hx Hy Hx)
    as (Hrefl & _ & _ & _ & Hafter).
  destruct (consistent_comparator_spec values y x y Hconsistent Hy Hx Hy)
    as (_ & Hsym & _).
  destruct (sort_compare y x) eqn:E; [done| |].
  - specialize (Hsym eq_refl). congruence.
  - specialize (Hafter Hxy eq_refl). congruence.
Qed.

(** Not going after is transitive. *)
Lemma not_after_trans x y z :
  x ∈ values → y ∈ values → z ∈ values →
  sort_compare x y ≠ SortsAfter → sort_compare y z ≠ SortsAfter →
  sort_compare x z ≠ SortsAfter.
Proof.
  intros Hx Hy Hz Hxy Hyz Hxz.
  assert (Hzx := sorts_after_before x z Hx Hz Hxz).
  destruct (consistent_comparator_spec values x y z Hconsistent Hx Hy Hz)
    as (_ & Hsym_xy & Hsame & Hbefore & _).
  destruct (consistent_comparator_spec values z x y Hconsistent Hz Hx Hy)
    as (_ & _ & _ & Hbefore_zxy & _).
  destruct (consistent_comparator_spec values y z x Hconsistent Hy Hz Hx)
    as (_ & Hsym_yz & _ & Hbefore_yzx & _).
  destruct (sort_compare x y) eqn:Exy; [| |done];
    destruct (sort_compare y z) eqn:Eyz; [| |done| | |done].
  - specialize (Hbefore eq_refl eq_refl). congruence.
  - specialize (Hbefore_zxy Hzx eq_refl). specialize (Hsym_yz eq_refl). congruence.
  - specialize (Hbefore_yzx eq_refl Hzx). specialize (Hsym_xy eq_refl). congruence.
  - specialize (Hsame eq_refl eq_refl). congruence.
Qed.

Lemma insert_desc_sorted x sorted :
  x ∈ values → sorted ⊆ values →
  StronglySorted (λ a b, sort_compare a b ≠ SortsAfter) sorted →
  StronglySorted (λ a b, sort_compare a b ≠ SortsAfter) (insert_desc x sorted).
Proof.
  intros Hx Hsub. induction 1 as [|y sorted Hsorted IH Hy]; simpl; [by repeat constructor|].
  assert (Hyv : y ∈ values) by (apply Hsub; by left).
  assert (Hsub' : sorted ⊆ values) by (intros z Hz; apply Hsub; by right).
  unfold sorts. case_bool_decide as Hxy.
  - constructor; [by apply IH|]. rewrite insert_desc_perm. constructor; [|done].
    by rewrite (sorts_after_before x y).
  - constructor; [by constructor|]. constructor; [done|].
    apply Forall_forall. intros z Hz.
    apply (not_after_trans x y z); [done | done | by apply Hsub' | done |].
    by apply (proj1 (Forall_forall _ _) Hy).
Qed.

Lemma sort_desc_sorted entries :
  entries ⊆ values →
  StronglySorted (λ a b, sort_compare a b ≠ SortsAfter) (sort_desc entries).
Proof.
  induction entries as [|x entries IH]; intros Hsub; simpl; [constructor|].
  apply insert_desc_sorted.
  - apply Hsub. by left.
  - intros z Hz. apply Hsub. right. by rewrite <- (sort_desc_perm entries).
  - apply IH. intros z Hz. apply Hsub. by right.
Qed.
End consistent.

(** Entries with pairwise distinct keys make an object that holds exactly
    these entries. *)
Lemma obj_from_entries_perm {V} (entries : list (string * V)) :
  NoDup entries.*1 → obj_from_entries entries ≡ₚ entries.
Proof.
  induction entries as [|[k v] entries IH] using rev_ind; [done|].
  rewrite fmap_app. intros (Hnd & Hdisj & _)%NoDup_app.
  unfold obj_from_entries in *. rewrite foldl_snoc. simpl.
  rewrite obj_set_new.
  - rewrite IH by done. by rewrite Permutation_app_comm.
  - rewrite (fmap_Permutation fst _ _ (IH Hnd)). intros Hin.
    apply (Hdisj _ Hin). by left.
Qed.

Lemma obj_set_length {V} key (v : V) (o : js_object V) :
  (length (obj_set key v o) ≤ S (length o))%nat.
Proof.
  unfold obj_set. case_decide.
  - rewrite length_fmap. lia.
  - destruct (array_index key).
    + by rewrite obj_insert_index_perm.
    + rewrite length_app. simpl. lia.
Qed.

Lemma obj_from_entries_length {V} (entries : list (string * V)) :
  (length (obj_from_entries entries) ≤ length entries)%nat.
Proof.
  induction entries as [|[k v] entries IH] using rev_ind; [done|].
  unfold obj_from_entries in *. rewrite foldl_snoc, length_app. simpl.
  etrans; [apply obj_set_length|]. lia.
Qed.

Lemma slice_index_le len (i : Z) : (slice_index len i ≤ len)%nat.
Proof. unfold slice_index. case_match; lia. Qed.

Lemma obj_set_keeps_keys {V} key (v : V) (o : js_object V) k :
  k ∈ o.*1 → k ∈ (obj_set key v o).*1.
Proof.
  intros Hk. unfold obj_set. case_decide as Hin.
  - by rewrite obj_replace_keys.
  - assert (Hperm := obj_set_new key v o Hin). unfold obj_set in Hperm.
    rewrite decide_False in Hperm by done.
    rewrite (fmap_Permutation fst _ _ Hperm). by right.
Qed.

Lemma obj_set_other_entries {V} key (x : V) (o : js_object V) k v :
  (k, v) ∈ obj_set key x o → k ≠ key → (k, v) ∈ o.
Proof.
  intros Hkv Hne. unfold obj_set in Hkv. case_decide as Hin.
  - apply list_elem_of_fmap in Hkv as ([k0 v0] & Heq & Hkv). simpl in Heq.
    case_decide; by simplify_eq.
  - assert (Hperm := obj_set_new key x o Hin). unfold obj_set in Hperm.
    rewrite decide_False in Hperm by done. rewrite Hperm in Hkv.
    apply elem_of_cons in Hkv as [?|?]; [by simplify_eq | done].
Qed.
End top_n_proofs.

(** X8: for a [topN] that is not negative the result has at most [topN]
    keys and the key [other], whatever the numbers are and in whatever
    order the sort leaves them. *)
Theorem getTopNWithOther_size
    (engine_order : list (string * float) → list (string * float))
    (obj : js_object float) (topN : Z) :
  (0 ≤ topN)%Z →
  (length (getTopNWithOther engine_order obj topN) ≤ Z.to_nat topN + 1)%nat.
Proof.
  intros HtopN. unfold getTopNWithOther, obj_entries.
  set (sorted := sort_entries engine_order obj).
  assert (Htop : (length (obj_from_entries (take (slice_index (length sorted) topN) sorted))
                  ≤ Z.to_nat topN)%nat).
  { etrans; [apply obj_from_entries_length|]. rewrite length_take.
    unfold slice_index. case_match; lia. }
  case_match; [|lia]. etrans; [apply obj_set_length|]. lia.
Qed.

Lemma getTopNWithOther_size_witness :
  (length (getTopNWithOther (λ l, l)
             [("a", 5%float); ("b", 7%float); ("c", 1%float); ("d", 2%float)] 2)
   ≤ Z.to_nat 2 + 1)%nat.
Proof.
  apply (getTopNWithOther_size (λ l, l)
           [("a", 5%float); ("b", 7%float); ("c", 1%float); ("d", 2%float)] 2).
  lia.
Defined.

(** X10: when the comparator [b[1] - a[1]] is a consistent comparator for
    the entries, the entries kept are the largest as the comparator sees
    them: it puts no entry left out of the result before an entry kept
    in it. *)
Theorem getTopNWithOther_keeps_largest
    (engine_order : list (string * float) → list (string * float))
    (obj : js_object float) (topN : Z) (k k' : string) (v v' : float) :
  consistent_comparator obj = true →
  NoDup obj.*1 →
  (k, v) ∈ getTopNWithOther engine_order obj topN → k ≠ "other" →
  (k', v') ∈ obj → k' ∉ (getTopNWithOther engine_order obj topN).*1 →
  sort_compare (k, v) (k', v') ≠ SortsAfter.
Proof.
  intros Hconsistent Hnd Hkept Hk Hin Hout.
  unfold getTopNWithOther, obj_entries, sort_entries in *. rewrite Hconsistent in *.
  set (sorted := sort_desc obj) in *. set (split := slice_index (length sorted) topN) in *.
  assert (Hperm : sorted ≡ₚ obj) by apply sort_desc_perm.
  assert (Hsplit : take split sorted ++ drop split sorted = sorted) by apply take_drop.
  assert (Hnd' : NoDup sorted.*1) by (by rewrite Hperm).
  assert (Hndtop : NoDup (take split sorted).*1).
  { rewrite <- Hsplit, fmap_app in Hnd'. by apply NoDup_app in Hnd' as (? & _). }
  assert (Htop : obj_from_entries (take split sorted) ≡ₚ take split sorted)
    by (by apply obj_from_entries_perm).
  assert (Hkept' : (k, v) ∈ take split sorted).
  { rewrite <- Htop. case_match; [|done]. by eapply obj_set_other_entries. }
  assert (Hout' : k' ∉ (take split sorted).*1).
  { rewrite <- (fmap_Permutation fst _ _ Htop). intros Hk'. apply Hout.
    case_match; [|done]. by apply obj_set_keeps_keys. }
  assert (Hdropped : (k', v') ∈ drop split sorted).
  { rewrite <- Hperm, <- Hsplit in Hin. apply elem_of_app in Hin as [Hin|Hin]; [|done].
    destruct Hout'. apply list_elem_of_fmap. by exists (k', v'). }
  assert (Hsorted := sort_desc_sorted obj Hconsistent obj (λ z Hz, Hz)).
  fold sorted in Hsorted. rewrite <- Hsplit in Hsorted.
  apply (StronglySorted_app_1_elem_of _ _ _ (k, v) (k', v') Hsorted Hkept' Hdropped).
Qed.

Lemma getTopNWithOther_keeps_largest_witness :
  sort_compare ("a", 5%float) ("d", 2%float) ≠ SortsAfter.
Proof.
  apply (getTopNWithOther_keeps_largest (λ l, l)
           [("a", 5%float); ("b", 7%float); ("c", 1%float); ("d", 2%float)] 2 "a" "d").
  - vm_compute. reflexivity.
  - compute_done.
  - apply (list_elem_of_lookup_2 _ 1). vm_compute. reflexivity.
  - done.
  - apply (list_elem_of_lookup_2 _ 3). reflexivity.
  - compute_done.
Defined.

(** X11: a [topN] that is at least the number of keys leaves nothing out:
    the result maps the keys of the object to the numbers they had, and no
    key [other] is added, whatever the numbers are and in whatever order
    the sort leaves the entries. *)
Theorem getTopNWithOther_all
    (engine_order : list (string * float) → list (string * float))
    (obj : js_object float) (topN : Z) :
  (∀ l, engine_order l ≡ₚ l) →
  NoDup obj.*1 →
  (Z.of_nat (length obj) ≤ topN)%Z →
  obj_map (getTopNWithOther engine_order obj topN) = obj_map obj.
Proof.
  intros Hengine Hnd HtopN. unfold getTopNWithOther, obj_entries.
  set (sorted := sort_entries engine_order obj).
  assert (Hperm : sorted ≡ₚ obj) by (by apply sort_entries_perm).
  assert (Hsplit : slice_index (length sorted) topN = length sorted).
  { assert (Hlen := Permutation_length Hperm).
    unfold slice_index. case_match eqn:E; [apply Z.ltb_lt in E|]; lia. }
  rewrite Hsplit, firstn_all, drop_all.
  assert (Hzero : (0 <? sum_values [])%float = false) by reflexivity.
  rewrite Hzero.
  assert (Hnd' : NoDup sorted.*1) by (by rewrite Hperm).
  unfold obj_map. symmetry. apply list_to_map_proper; [done|].
  by rewrite obj_from_entries_perm, Hperm.
Qed.

Lemma getTopNWithOther_all_witness :
  obj_map (getTopNWithOther (λ l, l) [("a", 5%float); ("b", 7%float)] 2)
  = obj_map [("a", 5%float); ("b", 7%float)].
Proof.
  apply (getTopNWithOther_all (λ l, l) [("a", 5%float); ("b", 7%float)] 2).
  - done.
  - compute_done.
  - by vm_compute.
Defined.

(** ** The order of the options [fieldOptionsUnion] returns *)

Section first_occurrences_facts.
Implicit Types (l : list string) (x y : string).

Lemma filter_all {A} (P : A → Prop) `{!∀ a, Decision (P a)} (l : list A) :
  Forall P l → filter P l = l.
Proof.
  induction 1 as [|a l Ha _ IH]; [done|]. by rewrite filter_cons_True, IH.
Qed.

Lemma filter_ext_elem {A} (P Q : A → Prop) `{!∀ a, Decision (P a)}
    `{!∀ a, Decision (Q a)} (l : list A) :
  (∀ a, a ∈ l → P a ↔ Q a) → filter P l = filter Q l.
Proof.
  induction l as [|a l IH]; intros Hext; [done|].
  rewrite !filter_cons, IH by (intros b Hb; apply Hext; by right).
  destruct (decide (P a)) as [HP|HP], (decide (Q a)) as [HQ|HQ]; try done;
    exfalso; apply (Hext a) in HP || apply (Hext a) in HQ; try done; by left.
Qed.

Lemma first_occurrences_elem x l : x ∈ first_occurrences l ↔ x ∈ l.
Proof.
  induction l as [|y l IH]; simpl; [done|].
  rewrite !elem_of_cons, list_elem_of_filter, IH.
  destruct (decide (x = y)); naive_solver.
Qed.

Lemma first_occurrences_NoDup l : NoDup (first_occurrences l).
Proof.
  induction l as [|y l IH]; simpl; constructor.
  - rewrite list_elem_of_filter. by intros [? _].
  - by apply NoDup_filter.
Qed.

Lemma first_occurrences_id l : NoDup l → first_occurrences l = l.
Proof.
  induction 1 as [|y l Hy _ IH]; simpl; [done|]. rewrite IH. f_equal.
  apply filter_all, Forall_forall. by intros x Hx ->.
Qed.

Lemma first_occurrences_app l1 l2 :
  first_occurrences (l1 ++ l2)
  = first_occurrences l1 ++ filter (λ y, y ∉ l1) (first_occurrences l2).
Proof.
  induction l1 as [|x l1 IH]; simpl.
  - symmetry. apply filter_all, Forall_forall. intros y _. apply not_elem_of_nil.
  - rewrite IH, filter_app, list_filter_filter. do 2 f_equal.
    apply list_filter_iff. intros y. rewrite not_elem_of_cons. naive_solver.
Qed.
End first_occurrences_facts.

Section union_order.
Context {V : Type}.
Implicit Types (o target source : js_object V) (key k : string) (v : V).

Lemma obj_set_keys_elem key v o k : k ∈ (obj_set key v o).*1 ↔ k = key ∨ k ∈ o.*1.
Proof.
  unfold obj_set. case_decide as Hin.
  - rewrite obj_replace_keys. naive_solver.
  - assert (Hperm := obj_set_new key v o Hin). unfold obj_set in Hperm.
    rewrite decide_False in Hperm by done.
    rewrite (fmap_Permutation fst _ _ Hperm). simpl. by rewrite elem_of_cons.
Qed.

Lemma obj_spread_keys_elem target source k :
  k ∈ (obj_spread target source).*1 ↔ k ∈ target.*1 ∨ k ∈ source.*1.
Proof.
  revert target. induction source as [|[k' v'] source IH]; intros target.
  - simpl. rewrite elem_of_nil. naive_solver.
  - change (obj_spread target ((k', v') :: source))
      with (obj_spread (obj_set k' v' target) source).
    rewrite IH, obj_set_keys_elem, fmap_cons, elem_of_cons. simpl. naive_solver.
Qed.

(** The keys that are no array index. *)
Lemma plain_keys_insert_index n key v o :
  array_index key = Some n →
  filter (λ k, array_index k = None) (obj_insert_index n key v o).*1
  = filter (λ k, array_index k = None) o.*1.
Proof.
  intros Hkey. induction o as [|[k' v'] o IH]; simpl.
  - by rewrite filter_cons_False by (by rewrite Hkey).
  - destruct (array_index k') as [n'|] eqn:Hk'.
    + destruct (n' <? n)%N.
      * rewrite !fmap_cons, !filter_cons. simpl. by rewrite IH.
      * rewrite fmap_cons. simpl. by rewrite filter_cons_False by (by rewrite Hkey).
    + rewrite fmap_cons. simpl. by rewrite filter_cons_False by (by rewrite Hkey).
Qed.

Lemma plain_keys_set key v o :
  filter (λ k, array_index k = None) (obj_set key v o).*1
  = filter (λ k, array_index k = None) o.*1
    ++ (if decide (array_index key = None ∧ key ∉ o.*1) then [key] else []).
Proof.
  unfold obj_set. case_decide as Hin.
  - rewrite obj_replace_keys, decide_False by naive_solver. by rewrite app_nil_r.
  - destruct (array_index key) as [n|] eqn:Hkey.
    + rewrite plain_keys_insert_index by done.
      rewrite decide_False by naive_solver. by rewrite app_nil_r.
    + rewrite fmap_app, filter_app, decide_True by done. simpl.
      by rewrite filter_cons_True by done.
Qed.

Lemma plain_keys_spread target source :
  filter (λ k, array_index k = None) (obj_spread target source).*1
  = filter (λ k, array_index k = None) target.*1
    ++ filter (λ y, y ∉ target.*1)
         (first_occurrences (filter (λ k, array_index k = None) source.*1)).
Proof.
  revert target. induction source as [|[k v] source IH]; intros target.
  - simpl. by rewrite app_nil_r.
  - change (obj_spread target ((k, v) :: source))
      with (obj_spread (obj_set k v target) source).
    rewrite IH, plain_keys_set, fmap_cons, filter_cons. simpl.
    destruct (decide (array_index k = None)) as [Hplain|Hindex].
    + simpl. destruct (decide (k ∈ target.*1)) as [Hin|Hnew].
      * rewrite decide_False by naive_solver. rewrite app_nil_r. f_equal.
        rewrite filter_cons_False by naive_solver.
        rewrite list_filter_filter. apply list_filter_iff. intros y.
        rewrite obj_set_keys_elem. naive_solver.
      * rewrite decide_True by done. rewrite <- app_assoc. f_equal. simpl.
        rewrite filter_cons_True by done. f_equal.
        rewrite list_filter_filter. apply list_filter_iff. intros y.
        rewrite obj_set_keys_elem. naive_solver.
    + rewrite decide_False by naive_solver. rewrite app_nil_r. f_equal.
      apply filter_ext_elem. intros y Hy. rewrite obj_set_keys_elem.
      apply first_occurrences_elem, list_elem_of_filter in Hy as [Hy _].
      split; [naive_solver|]. intros Hnot [->|?]; [|done]. by rewrite Hy in Hindex.
Qed.

Lemma plain_keys_copy o :
  filter (λ k, array_index k = None) (obj_spread [] o).*1
  = first_occurrences (filter (λ k, array_index k = None) o.*1).
Proof.
  rewrite plain_keys_spread. simpl. apply filter_all, Forall_forall.
  intros y _. apply not_elem_of_nil.
Qed.
End union_order.

Section union_order_proofs.
Implicit Types (options : list FieldOption) (o : FieldOption) (v : string).

Lemma first_occurrences_snoc (l : list string) (x : string) :
  first_occurrences (l ++ [x])
  = first_occurrences l ++ (if decide (x ∈ l) then [] else [x]).
Proof.
  rewrite first_occurrences_app. f_equal. simpl.
  rewrite filter_nil. case_decide.
  - by rewrite filter_cons_False by naive_solver.
  - by rewrite filter_cons_True by done.
Qed.

Lemma first_occurrences_idemp (l : list string) :
  first_occurrences (first_occurrences l) = first_occurrences l.
Proof. apply first_occurrences_id, first_occurrences_NoDup. Qed.

Lemma plain_elem (k : string) (l : list string) :
  array_index k = None → k ∈ l ↔ k ∈ filter (λ k, array_index k = None) l.
Proof. intros Hk. rewrite list_elem_of_filter. naive_solver. Qed.

(** The object built by [reduce] lists its plain keys by first occurrence. *)
Lemma reduce_plain_keys options :
  filter (λ k, array_index k = None) (foldl union_step [] options).*1
  = first_occurrences (filter (λ k, array_index k = None) (value <$> options)).
Proof.
  induction options as [|o options IH] using rev_ind; [done|].
  rewrite foldl_snoc. unfold union_step at 1.
  rewrite plain_keys_set, plain_keys_copy, IH, first_occurrences_idemp.
  rewrite fmap_app, filter_app. simpl. rewrite filter_cons, filter_nil.
  destruct (decide (array_index (value o) = None)) as [Hplain|Hindex].
  - rewrite first_occurrences_snoc. f_equal.
    assert (Hiff : value o ∉ (obj_spread [] (foldl union_step [] options)).*1
                   ↔ value o ∉ filter (λ k, array_index k = None) (value <$> options)).
    { rewrite obj_spread_keys_elem, fmap_nil, elem_of_nil.
      rewrite (plain_elem (value o) (foldl union_step [] options).*1), IH,
        first_occurrences_elem by done.
      naive_solver. }
    repeat case_decide; naive_solver.
  - rewrite app_nil_r, decide_False by naive_solver. by rewrite app_nil_r.
Qed.

Lemma merged_plain_keys options1 options2 :
  filter (λ k, array_index k = None)
    (obj_spread (obj_spread [] (foldl union_step [] options1))
                (foldl union_step [] options2)).*1
  = first_occurrences
      (filter (λ k, array_index k = None) (value <$> options1 ++ options2)).
Proof.
  rewrite plain_keys_spread, plain_keys_copy, !reduce_plain_keys, !first_occurrences_idemp.
  rewrite fmap_app, filter_app, first_occurrences_app. f_equal.
  apply filter_ext_elem. intros y Hy.
  apply first_occurrences_elem, list_elem_of_filter in Hy as [Hy _].
  rewrite obj_spread_keys_elem, fmap_nil, elem_of_nil.
  rewrite (plain_elem y (foldl union_step [] options1).*1), reduce_plain_keys,
    first_occurrences_elem by done.
  naive_solver.
Qed.

Lemma merged_sorted options1 options2 :
  StronglySorted key_before
    (obj_spread (obj_spread [] (foldl union_step [] options1))
                (foldl union_step [] options2)).*1.
Proof.
  apply (obj_spread_wf (obj_spread [] _)), obj_spread_wf.
  split; constructor.
Qed.

Lemma fieldOptionsUnion_values options1 options2 :
  value <$> fieldOptionsUnion options1 options2
  = (obj_spread (obj_spread [] (foldl union_step [] options1))
                (foldl union_step [] options2)).*1.
Proof.
  destruct (merged_spec options1 options2) as [Hnd Hmap].
  unfold fieldOptionsUnion. by erewrite merged_keys_are_values.
Qed.

Lemma fieldOptionsUnion_latest options1 options2 :
  Forall (λ o, latest (value o) (options1 ++ options2) = Some o)
    (fieldOptionsUnion options1 options2).
Proof.
  destruct (merged_spec options1 options2) as [Hnd Hmap].
  apply Forall_forall. intros o Ho. by apply (merged_values _ _ _ Hnd Hmap).
Qed.

Lemma fieldOptionsUnion_plain_values options1 options2 :
  Forall (λ o, array_index (value o) = None) (options1 ++ options2) →
  value <$> fieldOptionsUnion options1 options2
  = first_occurrences (value <$> options1 ++ options2).
Proof.
  intros Hplain.
  assert (Hall : Forall (λ k, array_index k = None)
                   (value <$> fieldOptionsUnion options1 options2)).
  { apply Forall_fmap. eapply Forall_impl; [apply fieldOptionsUnion_latest|].
    intros o Ho. apply latest_Some in Ho as [_ Ho].
    by eapply (proj1 (Forall_forall _ _) Hplain). }
  rewrite <- (filter_all _ _ Hall), fieldOptionsUnion_values, merged_plain_keys.
  f_equal. apply filter_all. by apply Forall_fmap.
Qed.

(** Among options with distinct values, the last option with a value is
    the only one. *)
Lemma latest_unique options o :
  NoDup (value <$> options) → o ∈ options → latest (value o) options = Some o.
Proof.
  induction options as [|o' options IH] using rev_ind; [by inversion 2|].
  rewrite fmap_app, NoDup_app, elem_of_app, latest_snoc. simpl.
  intros (Hnd & Hdisj & _) Hin. case_decide as Hv.
  - destruct Hin as [Hin|Hin]; [|apply list_elem_of_singleton in Hin; by subst].
    destruct (Hdisj (value o)); [by apply list_elem_of_fmap_2|].
    rewrite Hv. by left.
  - destruct Hin as [Hin|Hin]; [by apply IH|].
    apply list_elem_of_singleton in Hin. by subst.
Qed.

End union_order_proofs.

(** X12: the order of the options of [fieldOptionsUnion(options1, options2)].
    The options whose value is an array index ("0", "7", "42") come first,
    by ascending number; the other options follow, each at the place where
    its value occurs first in [options1] followed by [options2]. *)
Theorem fieldOptionsUnion_order (options1 options2 : list FieldOption) :
  let values := value <$> fieldOptionsUnion options1 options2 in
  StronglySorted key_before values
  ∧ filter (λ k, array_index k = None) values
    = first_occurrences
        (filter (λ k, array_index k = None) (value <$> options1 ++ options2)).
Proof.
  intros values. unfold values. rewrite fieldOptionsUnion_values.
  split; [apply merged_sorted | apply merged_plain_keys].
Qed.

(** X13: when no value is an array index, [fieldOptionsUnion] returns one
    option per value in the order of the values' first occurrences in
    [options1] followed by [options2]; the option returned for a value is
    the last one that carries it. *)
Theorem fieldOptionsUnion_plain_order (options1 options2 : list FieldOption) :
  Forall (λ o, array_index (value o) = None) (options1 ++ options2) →
  Forall2 (λ o v, latest v (options1 ++ options2) = Some o)
    (fieldOptionsUnion options1 options2)
    (first_occurrences (value <$> options1 ++ options2)).
Proof.
  intros Hplain. rewrite <- (fieldOptionsUnion_plain_values _ _ Hplain).
  apply Forall2_fmap_r, Forall_Forall2_diag, fieldOptionsUnion_latest.
Qed.

Lemma fieldOptionsUnion_plain_order_witness :
  Forall (λ o, array_index (value o) = None)
    ([{| value := "b"; label := "B" |}; {| value := "a"; label := "A" |}]
     ++ [{| value := "a"; label := "A2" |}; {| value := "c"; label := "C" |}])
  ∧ Forall2 (λ o v, latest v ([{| value := "b"; label := "B" |}; {| value := "a"; label := "A" |}]
                            ++ [{| value := "a"; label := "A2" |}; {| value := "c"; label := "C" |}])
                   = Some o)
      (fieldOptionsUnion [{| value := "b"; label := "B" |}; {| value := "a"; label := "A" |}]
                         [{| value := "a"; label := "A2" |}; {| value := "c"; label := "C" |}])
      (first_occurrences
         (value <$> [{| value := "b"; label := "B" |}; {| value := "a"; label := "A" |}]
                    ++ [{| value := "a"; label := "A2" |}; {| value := "c"; label := "C" |}])).
Proof.
  assert (H : Forall (λ o, array_index (value o) = None)
    ([{| value := "b"; label := "B" |}; {| value := "a"; label := "A" |}]
     ++ [{| value := "a"; label := "A2" |}; {| value := "c"; label := "C" |}]))
    by (repeat constructor).
  split; [exact H | exact (fieldOptionsUnion_plain_order _ _ H)].
Defined.

(** ** The options of a select field in the form builder *)

(** X14: the data of the select for default values always offers "yes"
    and then "no" before every other option whose value is no array
    index, whatever the field's own options are; the field's other such
    options follow by first occurrence. *)
Theorem select_data_yes_no_first (options : option (list FieldOption)) :
  filter (λ k, array_index k = None) (value <$> select_data options)
  = "yes" :: "no"
    :: filter (λ v, v ≠ "yes" ∧ v ≠ "no")
         (first_occurrences
            (filter (λ k, array_index k = None) (value <$> default [] options))).
Proof.
  unfold select_data. rewrite fieldOptionsUnion_values, merged_plain_keys.
  rewrite fmap_app, filter_app.
  change (filter _ (value <$> YesNoOptions)) with ["yes"; "no"]. simpl.
  rewrite !filter_cons_True by done. by rewrite list_filter_filter.
Qed.

(** X15: when the field's options have distinct values, none of them an
    array index, "yes" or "no", the data of the select is the two built-in
    options followed by the field's options as they are. *)
Theorem select_data_appends (options : list FieldOption) :
  Forall (λ o, array_index (value o) = None) options →
  NoDup (value <$> options) →
  "yes" ∉ value <$> options →
  "no" ∉ value <$> options →
  select_data (Some options) = YesNoOptions ++ options.
Proof.
  intros Hplain Hnd Hyes Hno.
  change (fieldOptionsUnion YesNoOptions options = YesNoOptions ++ options).
  assert (Hall : Forall (λ o, array_index (value o) = None) (YesNoOptions ++ options)).
  { apply Forall_app. split; [by repeat constructor | done]. }
  assert (Hnd' : NoDup (value <$> YesNoOptions ++ options)).
  { rewrite fmap_app. simpl. rewrite !NoDup_cons, !elem_of_cons. naive_solver. }
  assert (Hvalues := fieldOptionsUnion_plain_values _ _ Hall).
  rewrite (first_occurrences_id _ Hnd') in Hvalues.
  assert (Hlatest := fieldOptionsUnion_latest YesNoOptions options).
  revert Hvalues Hlatest Hnd'.
  generalize (fieldOptionsUnion YesNoOptions options) (YesNoOptions ++ options).
  intros out all Hvalues Hlatest Hnd'.
  assert (Hlen : length out = length all).
  { by rewrite <- (length_fmap value out), Hvalues, length_fmap. }
  apply list_eq_Forall2, Forall2_same_length_lookup_2; [done|].
  intros i o o' Ho Ho'.
  assert (Hv : value o = value o').
  { apply (f_equal (λ l, l !! i)) in Hvalues.
    rewrite !list_lookup_fmap, Ho, Ho' in Hvalues. by injection Hvalues. }
  assert (Hl : latest (value o) all = Some o).
  { by eapply (proj1 (Forall_forall _ _) Hlatest), list_elem_of_lookup_2. }
  rewrite Hv, (latest_unique all o') in Hl; [congruence | done |].
  by eapply list_elem_of_lookup_2.
Qed.

Lemma select_data_appends_witness :
  select_data (Some [{| value := "maybe"; label := "Maybe" |};
                     {| value := "n/a"; label := "Not applicable" |}])
  = YesNoOptions ++ [{| value := "maybe"; label := "Maybe" |};
                     {| value := "n/a"; label := "Not applicable" |}].
Proof.
  apply (select_data_appends [{| value := "maybe"; label := "Maybe" |};
                              {| value := "n/a"; label := "Not applicable" |}]).
  - by repeat constructor.
  - compute_done.
  - compute_done.
  - compute_done.
Defined.

(** ** The clinic of a user in the users list *)

(** X16: [getClinicName] gives the name of the first clinic of the list
    that has the id, also when that name is empty. *)
Theorem getClinicName_first_match (before after : list Clinic) (clinic : Clinic) :
  clinic_id clinic ∉ clinic_id <$> before →
  getClinicName (before ++ clinic :: after) (clinic_id clinic) = clinic_name clinic.
Proof.
  intros Hnew. unfold getClinicName.
  assert (Hfind : List.find (λ c, String.eqb (clinic_id c) (clinic_id clinic))
                    (before ++ clinic :: after) = Some clinic).
  { induction before as [|c before IH]; simpl.
    - by rewrite String.eqb_refl.
    - rewrite fmap_cons, not_elem_of_cons in Hnew. destruct Hnew as [Hne Hnew].
      destruct (String.eqb_spec (clinic_id c) (clinic_id clinic)); [congruence|].
      by apply IH. }
  rewrite Hfind. unfold truthy.
  by destruct (String.eqb_spec (clinic_name clinic) "") as [->|].
Qed.

Lemma getClinicName_first_match_witness :
  getClinicName
    ([{| clinic_id := "c1"; clinic_name := "North" |}]
     ++ {| clinic_id := "c2"; clinic_name := "South" |}
     :: [{| clinic_id := "c2"; clinic_name := "Duplicate" |}])
    (clinic_id {| clinic_id := "c2"; clinic_name := "South" |})
  = clinic_name {| clinic_id := "c2"; clinic_name := "South" |}.
Proof.
  apply (getClinicName_first_match
           [{| clinic_id := "c1"; clinic_name := "North" |}]
           [{| clinic_id := "c2"; clinic_name := "Duplicate" |}]
           {| clinic_id := "c2"; clinic_name := "South" |}).
  compute_done.
Defined.

(** X17: for an id that no clinic of the list has, [getClinicName] gives
    the empty string. *)
Theorem getClinicName_unknown (clinics : list Clinic) (clinicId : string) :
  clinicId ∉ clinic_id <$> clinics → getClinicName clinics clinicId = "".
Proof.
  intros Hnew. unfold getClinicName.
  assert (Hfind : List.find (λ c, String.eqb (clinic_id c) clinicId) clinics = None).
  { induction clinics as [|c clinics IH]; simpl; [done|].
    rewrite fmap_cons, not_elem_of_cons in Hnew. destruct Hnew as [Hne Hnew].
    destruct (String.eqb_spec (clinic_id c) clinicId); [congruence|]. by apply IH. }
  by rewrite Hfind.
Qed.

Lemma getClinicName_unknown_witness :
  getClinicName [{| clinic_id := "c1"; clinic_name := "North" |}] "c9" = "".
Proof.
  apply (getClinicName_unknown [{| clinic_id := "c1"; clinic_name := "North" |}] "c9").
  compute_done.
Defined.

(** ** The type of what [safeJSONParse] returns *)

(** X18: whatever [JSON.parse] does, [safeJSONParse] returns a value whose
    [typeof] is that of the default value; the value is the default, the
    input, or what [JSON.parse] returned for the input string. *)
Theorem safeJSONParse_typeof (JSON_parse : string → completion js_value)
    (input defaultValue : js_value) :
  ∃ v, run JSON_parse (safeJSONParse input defaultValue) = Normal v
       ∧ typeof v = typeof defaultValue
       ∧ (v = defaultValue ∨ v = input
          ∨ ∃ text, input = JPrimitive (PString text) ∧ JSON_parse text = Normal v).
Proof.
  unfold safeJSONParse.
  destruct (bool_decide (typeof input = typeof defaultValue)
            && (if is_array input then is_array defaultValue else true)) eqn:Hsame.
  - apply andb_true_iff in Hsame as [Htype _]. apply bool_decide_eq_true in Htype.
    destruct input as [[]| | |]; simpl; eexists; (split; [done|]); eauto.
  - destruct input as [[]| | |]; simpl; try (eexists; (split; [done|]); by eauto).
    destruct (JSON_parse s) as [parsed|e] eqn:Hparse; simpl;
      [|eexists; (split; [done|]); by eauto].
    destruct (decide (typeof parsed = typeof defaultValue));
      eexists; (split; [done|]); eauto 6.
Qed.

(** X19: for an input string and a default that is no string, a value
    [JSON.parse] returns with the [typeof] of the default is returned, with
    no further check: with an array as default, [null] or a plain object
    comes back when the text parses to one. *)
Theorem safeJSONParse_parsed (JSON_parse : string → completion js_value)
    (text : string) (defaultValue parsed : js_value) :
  typeof defaultValue ≠ TString →
  JSON_parse text = Normal parsed →
  typeof parsed = typeof defaultValue →
  run JSON_parse (safeJSONParse (JPrimitive (PString text)) defaultValue) = Normal parsed.
Proof.
  intros Hdefault Hparse Htype. unfold safeJSONParse. simpl.
  rewrite bool_decide_eq_false_2 by done. simpl.
  rewrite Hparse. simpl. by rewrite decide_True.
Qed.

Lemma safeJSONParse_parsed_witness :
  run (λ _, Normal (JPrimitive PNull))
    (safeJSONParse (JPrimitive (PString "null")) (JArray []))
  = Normal (JPrimitive PNull).
Proof.
  apply (safeJSONParse_parsed (λ _, Normal (JPrimitive PNull)) "null" (JArray [])
           (JPrimitive PNull)).
  - discriminate.
  - reflexivity.
  - reflexivity.
Defined.

(** ** Properties of [camelCaseKeys] *)

Section camel_proofs.
Implicit Types (key k : string) (c d : Ascii.ascii) (v : js_value).

Lemma to_upper_letter d :
  is_letter d = true → is_separator (to_upper d) = false ∧ is_lower (to_upper d) = false.
Proof. by destruct d as [[] [] [] [] [] [] [] []]; vm_compute. Qed.

Lemma is_lower_letter d : is_lower d = true → is_letter d = true.
Proof. unfold is_lower, is_letter. simpl. intros ->. apply orb_true_r. Qed.

Lemma camel_key_cons c d rest :
  camel_key (String c (String d rest))
  = if is_separator c && is_letter d then String (to_upper d) (camel_key rest)
    else String c (camel_key (String d rest)).
Proof. done. Qed.

Lemma sep_then_lower_cons c key :
  sep_then_lower (String c key)
  = match key with
    | String d _ => (is_separator c && is_lower d) || sep_then_lower key
    | EmptyString => false
    end.
Proof. by destruct key. Qed.

(** After the replacement no separator is followed by a lower-case letter,
    and a lower-case first letter is the first letter of the key. *)
Lemma camel_key_scan key :
  let scanned k :=
    sep_then_lower (camel_key k) = false
    ∧ ∀ h t, camel_key k = String h t → is_lower h = true → ∃ t', k = String h t' in
  scanned key ∧ ∀ c, scanned (String c key).
Proof.
  intros scanned. induction key as [|d rest [IH1 IH2]].
  - split; [by split|]. intros c. split; [done|].
    intros h t [= <- <-] _. by eexists.
  - split; [apply IH2|]. intros c. unfold scanned. rewrite camel_key_cons.
    destruct (is_separator c && is_letter d) eqn:Hmatch.
    + apply andb_true_iff in Hmatch as [_ Hletter].
      destruct (to_upper_letter d Hletter) as [Hsep Hlow]. split.
      * rewrite sep_then_lower_cons. destruct (camel_key rest) eqn:E; [done|].
        rewrite Hsep. simpl. destruct IH1 as [IH1 _]. by rewrite E in IH1.
      * intros h t [= <- <-] Hh. congruence.
    + split.
      * rewrite sep_then_lower_cons.
        destruct (camel_key (String d rest)) as [|h t] eqn:E; [done|].
        destruct (IH2 d) as [Hrest Hhead]. rewrite E in Hrest, Hhead. rewrite Hrest.
        destruct (is_separator c) eqn:Hsep; [|done].
        destruct (is_lower h) eqn:Hlow; [|done].
        destruct (Hhead h t eq_refl Hlow) as [t' [= -> ->]].
        apply is_lower_letter in Hlow. simpl in Hmatch. congruence.
      * intros h t [= <- <-] _. by eexists.
Qed.

Lemma foldr_and_Forall {A} (P : A → Prop) (l : list A) :
  foldr (λ x rest, P x ∧ rest) True l ↔ Forall P l.
Proof.
  induction l as [|x l IH]; simpl; [by split; [constructor|]|].
  rewrite Forall_cons. naive_solver.
Qed.

Lemma js_value_ind' (P : js_value → Prop) :
  (∀ p, P (JPrimitive p)) →
  P JFunction →
  (∀ items, Forall P items → P (JArray items)) →
  (∀ props, Forall (λ kv, P kv.2) props → P (JObject props)) →
  ∀ v, P v.
Proof.
  intros Hprim Hfun Harr Hobj. fix IH 1. intros [p|items|props|].
  - apply Hprim.
  - apply Harr. induction items as [|item items IHitems]; constructor; [apply IH | done].
  - apply Hobj. induction props as [|[k v] props IHprops]; constructor; [apply IH | done].
  - apply Hfun.
Qed.

Lemma obj_set_entries {V} key (x : V) (o : js_object V) k (v : V) :
  (k, v) ∈ obj_set key x o → (k, v) = (key, x) ∨ (k, v) ∈ o.
Proof.
  unfold obj_set. case_decide as Hin.
  - rewrite list_elem_of_fmap. intros ([k' v'] & Heq & Hkv). simpl in Heq.
    case_decide; [by left | right; by rewrite Heq].
  - intros Hkv. assert (Hperm := obj_set_new key x o Hin). unfold obj_set in Hperm.
    rewrite decide_False in Hperm by done. rewrite Hperm in Hkv.
    by apply elem_of_cons in Hkv.
Qed.

(** The loop that builds the result object of [camelCaseKeys]. *)
Lemma camel_fold_entries {V W} (g : string → string) (f : V → W)
    (props : list (string * V)) (acc : js_object W) k w :
  (k, w) ∈ foldl (λ acc kv, obj_set (g kv.1) (f kv.2) acc) acc props →
  (k, w) ∈ acc ∨ ∃ kv, kv ∈ props ∧ k = g kv.1 ∧ w = f kv.2.
Proof.
  revert acc. induction props as [|kv props IH]; intros acc; simpl; [by left|].
  intros [Hin|(kv' & Hin & Hk & Hw)]%IH.
  - apply obj_set_entries in Hin as [[= -> ->]|Hin]; [|by left].
    right. exists kv. split; [by left|done].
  - right. exists kv'. split; [by right|done].
Qed.

Lemma camel_fold_same {V} (g : string → string) (f : V → V)
    (props : list (string * V)) (acc : js_object V) :
  Forall (λ kv, g kv.1 = kv.1 ∧ f kv.2 = kv.2) props →
  foldl (λ acc kv, obj_set (g kv.1) (f kv.2) acc) acc props
  = foldl (λ acc kv, obj_set kv.1 kv.2 acc) acc props.
Proof.
  intros Hsame. revert acc.
  induction Hsame as [|kv props [Hk Hv] _ IH]; intros acc; [done|].
  simpl. rewrite Hk, Hv. apply IH.
Qed.

Lemma camel_fold_spec {V W} (g : string → string) (f : V → W)
    (props : list (string * V)) :
  let out := foldl (λ acc kv, obj_set (g kv.1) (f kv.2) acc) [] props in
  obj_wf out
  ∧ ∀ k, obj_map out !! k
         = last (omap (λ kv, if decide (g kv.1 = k) then Some (f kv.2) else None) props).
Proof.
  induction props as [|kv props [IHwf IHmap]] using rev_ind.
  - split; [by split; constructor | done].
  - simpl in *. rewrite foldl_snoc. split; [by apply obj_set_wf|]. intros k.
    rewrite obj_set_map by apply IHwf. rewrite omap_app. simpl.
    case_decide as Hk.
    + subst k. by rewrite lookup_insert_eq, last_snoc.
    + rewrite lookup_insert_ne by done. by rewrite app_nil_r.
Qed.
End camel_proofs.

(** X20: the key [camelCaseKeys] writes for a key holds no separator
    followed by a lower-case letter; so it is never ["__proto__"], and the
    assignment [acc[camelKey] = ...] always defines an own property. *)
Theorem camel_key_no_separator_letter (key : string) :
  sep_then_lower (camel_key key) = false ∧ camel_key key ≠ "__proto__".
Proof.
  destruct (camel_key_scan key) as [[Hscan _] _]. split; [done|].
  intros Heq. by rewrite Heq in Hscan.
Qed.

(** X21: on an object [JSON.stringify] accepts, [camelCaseKeys] returns an
    object in property order that holds, under each camel-case key, the
    converted value of the last property whose key becomes that key: of
    two properties ["a_b"] and ["aB"] only the later one's value is
    kept. *)
Theorem camelCaseKeys_object (stringify_throws : js_value → bool)
    (props : list (string * js_value)) :
  stringify_throws (JObject props) = false →
  ∃ out, camelCaseKeys stringify_throws (JObject props) = JObject out
         ∧ obj_wf out
         ∧ ∀ k, obj_map out !! k
                = last (omap (λ kv, if decide (camel_key kv.1 = k)
                                    then Some (camelCaseKeys stringify_throws kv.2)
                                    else None) props).
Proof.
  intros Hthrows. eexists. split; [simpl; by rewrite Hthrows|].
  apply (camel_fold_spec camel_key (camelCaseKeys stringify_throws)).
Qed.

Lemma camelCaseKeys_object_witness :
  ∃ out, camelCaseKeys (λ _, false)
           (JObject [("a_b", JPrimitive (PBoolean true)); ("aB", JPrimitive PNull)])
         = JObject out
         ∧ obj_wf out
         ∧ ∀ k, obj_map out !! k
                = last (omap (λ kv, if decide (camel_key kv.1 = k)
                                    then Some (camelCaseKeys (λ _, false) kv.2)
                                    else None)
                          [("a_b", JPrimitive (PBoolean true)); ("aB", JPrimitive PNull)]).
Proof.
  apply (camelCaseKeys_object (λ _, false)
           [("a_b", JPrimitive (PBoolean true)); ("aB", JPrimitive PNull)]).
  reflexivity.
Defined.

(** X22: when [JSON.stringify] throws on none of the arrays and objects
    inside the argument, no key of the result of [camelCaseKeys], at any
    depth, holds a separator followed by a lower-case letter. *)
Theorem camelCaseKeys_keys (stringify_throws : js_value → bool) (obj : js_value) :
  never_throws stringify_throws obj = true →
  all_keys (λ k, negb (sep_then_lower k)) (camelCaseKeys stringify_throws obj) = true.
Proof.
  induction obj as [p| |items IH|props IH] using js_value_ind'; try done.
  - intros [Hthrows Hitems]%andb_true_iff. apply negb_true_iff in Hthrows.
    simpl. rewrite Hthrows. simpl. apply forallb_forall. intros v Hv.
    apply in_map_iff in Hv as (item & <- & Hitem).
    apply (proj1 (Forall_forall _ _) IH); [by apply list_elem_of_In|].
    by apply (proj1 (forallb_forall _ _) Hitems).
  - intros [Hthrows Hprops]%andb_true_iff. apply negb_true_iff in Hthrows.
    simpl. rewrite Hthrows. simpl. apply forallb_forall. intros [k w] Hkw.
    apply list_elem_of_In, camel_fold_entries in Hkw as [Hkw|(kv & Hkv & -> & ->)];
      [by apply elem_of_nil in Hkw|].
    simpl. apply andb_true_iff. split.
    + apply negb_true_iff, camel_key_scan.
    + apply (proj1 (Forall_forall _ _) IH); [done|].
      by apply (proj1 (forallb_forall _ _) Hprops), list_elem_of_In.
Qed.

Lemma camelCaseKeys_keys_witness :
  all_keys (λ k, negb (sep_then_lower k))
    (camelCaseKeys holds_bigint
       (JArray [JObject [("first_name", JPrimitive PNull);
                         ("clinic-ids", JObject [("__proto__", JPrimitive PNull)])]]))
  = true.
Proof. apply (camelCaseKeys_keys holds_bigint). reflexivity. Defined.

(** X23: on a value whose keys, at every depth, the replacement leaves as
    they are, [camelCaseKeys] returns an equal value, whatever
    [JSON.stringify] does. *)
Theorem camelCaseKeys_stable (stringify_throws : js_value → bool) (obj : js_value) :
  wf_value obj →
  all_keys (λ k, bool_decide (camel_key k = k)) obj = true →
  camelCaseKeys stringify_throws obj = obj.
Proof.
  induction obj as [p| |items IH|props IH] using js_value_ind'; try done.
  - intros Hwf Hkeys. simpl. destruct (stringify_throws _); [done|]. f_equal.
    simpl in Hwf, Hkeys. apply foldr_and_Forall in Hwf.
    induction IH as [|item items Hitem _ IHitems]; [done|].
    apply Forall_cons in Hwf as [Hwf1 Hwf]. simpl in Hkeys.
    apply andb_true_iff in Hkeys as [Hk1 Hkeys]. simpl.
    by rewrite Hitem, IHitems.
  - intros [Hobj Hwf] Hkeys. simpl. destruct (stringify_throws _); [done|]. f_equal.
    rewrite camel_fold_same; [by apply obj_from_entries_id|].
    simpl in Hkeys. apply foldr_and_Forall in Hwf. clear Hobj.
    induction IH as [|[k v] props Hitem _ IHprops]; constructor.
    + apply Forall_cons in Hwf as [Hwf1 _]. simpl in Hkeys.
      apply andb_true_iff in Hkeys as [[Hk Hv]%andb_true_iff _].
      apply bool_decide_eq_true in Hk. simpl in *. by rewrite Hitem.
    + apply Forall_cons in Hwf as [_ Hwf]. simpl in Hkeys.
      apply andb_true_iff in Hkeys as [_ Hkeys]. by apply IHprops.
Qed.

Lemma camelCaseKeys_stable_witness :
  camelCaseKeys (λ _, false)
    (JObject [("firstName", JArray [JObject [("id", JPrimitive PNull)]])])
  = JObject [("firstName", JArray [JObject [("id", JPrimitive PNull)]])].
Proof.
  apply (camelCaseKeys_stable (λ _, false)).
  - simpl. repeat split; repeat constructor; compute_done.
  - reflexivity.
Defined.

(** ** What the calls return in the heap *)

Section store_results.
Implicit Types (h : gmap Store.loc Store.cell) (l r : Store.loc).


End store_results.

(** X24: called on two stored arrays of strings, [orderedList] returns a
    new array, at a location the heap did not hold and so different from
    both arguments, with the items the functional [orderedList] gives. *)
Theorem store_orderedList_new_array (h : gmap Store.loc Store.cell)
    (l1 l2 : Store.loc) (xs ys : list string) :
  h !! l1 = Some (Store.CArray (str <$> xs)) →
  h !! l2 = Some (Store.CArray (str <$> ys)) →
  ∃ r h' out,
    Store.orderedList (Store.VRef l1) (Store.VRef l2) h = (Store.Returns (Store.VRef r), h')
    ∧ orderedList (Arr xs) (Arr ys) = Normal (Arr out)
    ∧ r ≠ l1 ∧ r ≠ l2 ∧ h !! r = None
    ∧ h' !! r = Some (Store.CArray (str <$> out)).
Proof.
  intros H1 H2.
  destruct (Refinement.orderedList_refines h l1 l2 xs ys H1 H2)
    as (r & h' & out & Hrun & Hpure & Hfresh & Hout).
  exists r, h', out. split_and!; try done; intros ->; congruence.
Qed.

Lemma store_orderedList_new_array_witness :
  ∃ r h' out,
    Store.orderedList (Store.VRef 1%positive) (Store.VRef 2%positive) sample_heap
    = (Store.Returns (Store.VRef r), h')
    ∧ orderedList (Arr ["a"; ""; "b"]) (Arr ["b"; "_"]) = Normal (Arr out)
    ∧ r ≠ 1%positive ∧ r ≠ 2%positive ∧ sample_heap !! r = None
    ∧ h' !! r = Some (Store.CArray (str <$> out)).
Proof.
  apply (store_orderedList_new_array sample_heap 1%positive 2%positive ["a"; ""; "b"] ["b"; "_"]).
  - reflexivity.
  - reflexivity.
Defined.

(** X25: when the first argument is a stored array and the second is not
    an array, [orderedList] returns the first argument itself, the same
    reference and no copy, and leaves the heap as it is. *)
Theorem store_orderedList_returns_list1 (h : gmap Store.loc Store.cell)
    (l1 : Store.loc) (items : list Store.val) (list2 : Store.val) :
  h !! l1 = Some (Store.CArray items) →
  (Store.isArray list2 h).1 = Store.Returns false →
  Store.orderedList (Store.VRef l1) list2 h = (Store.Returns (Store.VRef l1), h).
Proof. apply Refinement.orderedList_guard_second. Qed.

Lemma store_orderedList_returns_list1_witness :
  Store.orderedList (Store.VRef 1%positive) (Store.VPrimitive PUndefined) sample_heap
  = (Store.Returns (Store.VRef 1%positive), sample_heap).
Proof.
  apply (store_orderedList_returns_list1 sample_heap 1%positive
           [str "a"; str ""; str "b"] (Store.VPrimitive PUndefined)).
  - reflexivity.
  - reflexivity.
Defined.




